(** * license-checker: a shallow embedding of [checker/checker.go]

    The development follows the Go package [checker]: the rule engine
    ([searchRules.UnmarshalJSON], [Config.shouldExamine]), the file walker
    ([gatherFiles]), the per-file scan ([examine], [allowsLicense]), the
    fan-out over goroutines ([runConfig], [removeNilErrs]) and the top-level
    entry point ([Check]).

    What the package imports is kept apart from what it defines.  Module
    [filepath] models [path/filepath] on a Unix host, with paths in clean
    normal form and a directory tree that can be read throughout.  The
    file contents, the JSON decoder, the detection oracle
    ([licensecheck.Scan]) and the scheduler of goroutines are the fields of
    a record [World].  The sibling package [match], whose source is not at
    hand, is modelled from the specification in module [Match], and is a
    field of [World] wherever its behaviour does not matter.

    Effects are explicit: a computation returns its value with the trace of
    file reads, walks and prints it performed; the goroutines of
    [runConfig] run in the order the scheduler gives. *)

From Stdlib Require Import Ascii String List Bool Arith Lia Permutation Sorted.
From Stdlib Require Import DecimalString.
From stdpp Require Import base list.
Import ListNotations.

Local Open Scope string_scope.
Local Open Scope list_scope.

(** ** Go errors *)

(** A Go [error] is either [nil] or a value with a text.  The constructors
    record which [fmt.Errorf] of the package built the value; [ErrExt] stands
    for the errors handed back by the imported packages. *)
Inductive error : Type :=
| ErrExt (msg : string)
| ErrAbs (cause : error)
| ErrLoadConfig (cause : error)
| ErrAggregate (msg : string)
| ErrRuleConflict
| ErrGather (cause : error)
| ErrReadFile (path : string) (cause : error)
| ErrNoLicense (path : string)
| ErrUnsupported (path : string) (id : string).

(** The [Error()] text, with the format strings of the source. *)
Fixpoint Error (e : error) : string :=
  match e with
  | ErrExt msg => msg
  | ErrAbs cause => "Failed to get absolute working directory: " ++ Error cause
  | ErrLoadConfig cause => "Failed to load config file: " ++ Error cause
  | ErrAggregate msg => msg
  | ErrRuleConflict => "Rule cannot contain both include and exclude"
  | ErrGather cause => "Failed to gather files: " ++ Error cause
  | ErrReadFile path cause =>
      "Failed to read file '" ++ path ++ "': " ++ Error cause
  | ErrNoLicense path => path ++ " has no license"
  | ErrUnsupported path id =>
      path ++ " uses unsupported license '" ++ id ++ "'"
  end.

(** The pair [(T, error)] returned by fallible Go functions. *)
Inductive result (A : Type) : Type :=
| Ok (a : A)
| Err (e : error).
Arguments Ok {A} a.
Arguments Err {A} e.

Definition bindR {A B} (r : result A) (k : A -> result B) : result B :=
  match r with
  | Ok a => k a
  | Err e => Err e
  end.

(** [strings.Contains]. *)
Fixpoint Contains (s substr : string) : bool :=
  String.prefix substr s
  || match s with
     | EmptyString => false
     | String _ rest => Contains rest substr
     end.

(** [strings.TrimLeft s cutset]. *)
Fixpoint inCutset (c : ascii) (cutset : string) : bool :=
  match cutset with
  | EmptyString => false
  | String d rest => Ascii.eqb c d || inCutset c rest
  end.

Fixpoint TrimLeft (s cutset : string) : string :=
  match s with
  | EmptyString => EmptyString
  | String c rest => if inCutset c cutset then TrimLeft rest cutset else s
  end.

(** [strings.HasPrefix]. *)
Definition HasPrefix (s pre : string) : bool := String.prefix pre s.

(** [%d] of a slice length. *)
Definition itoa (n : nat) : string := NilEmpty.string_of_uint (Nat.to_uint n).

(** ** Package path/filepath, on a Unix host *)

Module filepath.

(** Every path the program handles is in [filepath.Clean] normal form:
    the root is the result of [filepath.Abs], the walk extends it with
    [Join], and [Rel] cleans its operands.  A clean path is kept as its
    list of elements and a flag for the leading separator; [text] gives
    the Go string. *)
Record Path : Type := mkPath { isAbs : bool; elems : list string }.

Fixpoint joinSep (l : list string) : string :=
  match l with
  | [] => ""
  | [x] => x
  | x :: rest => x ++ "/" ++ joinSep rest
  end.

Definition text (p : Path) : string :=
  if isAbs p then "/" ++ joinSep (elems p)
  else match elems p with
       | [] => "."
       | _ => joinSep (elems p)
       end.

Definition relPath (l : list string) : Path := mkPath false l.

(** The separator is the slash already. *)
Definition ToSlash (p : Path) : Path := p.

(** [Join a b] for clean operands where [b] is relative and holds no
    [..] element: a name read from a directory, or a path the walk
    returned.  Nothing cancels, the elements are appended. *)
Definition Join (a b : Path) : Path := mkPath (isAbs a) (elems a ++ elems b).

Fixpoint eqbElems (a b : list string) : bool :=
  match a, b with
  | [], [] => true
  | x :: a', y :: b' => String.eqb x y && eqbElems a' b'
  | _, _ => false
  end.

(** The loop of [Rel] that positions both paths at their first differing
    elements. *)
Fixpoint stripCommon (base targ : list string) : list string * list string :=
  match base, targ with
  | b :: base', t :: targ' =>
      if String.eqb t b then stripCommon base' targ' else (base, targ)
  | _, _ => (base, targ)
  end.

(** What is left of the base starts with [..]. *)
Definition headIsDotDot (l : list string) : bool :=
  match l with
  | x :: _ => String.eqb x ".."
  | [] => false
  end.

(** [Rel basepath targpath].  As documented, an error is returned if the
    target cannot be made relative to the base or if knowing the current
    working directory would be necessary to compute it: when only one of
    the two paths is rooted, and when the base, past the elements it shares
    with the target, goes on with [..], whether the target has elements
    left or not (the base [..] and the target [.], or the base [..] and
    the target [a]). *)
Definition Rel (basepath targpath : Path) : result Path :=
  if Bool.eqb (isAbs targpath) (isAbs basepath)
     && eqbElems (elems targpath) (elems basepath)
  then Ok (relPath [])
  else if negb (Bool.eqb (isAbs basepath) (isAbs targpath))
  then Err (ErrExt ("Rel: can't make " ++ text targpath
                    ++ " relative to " ++ text basepath))
  else
    let '(b, t) := stripCommon (elems basepath) (elems targpath) in
    if headIsDotDot b
    then Err (ErrExt ("Rel: can't make " ++ text targpath
                      ++ " relative to " ++ text basepath))
    else Ok (relPath (repeat ".." (List.length b) ++ t)).

(** *** The file tree and [Walk] *)

(** A directory lists its entries by name, in the order [readDirNames]
    returns them (sorted).  Anything that is not a directory is a [File]. *)
#[local] Unset Elimination Schemes.
Inductive Node : Type :=
| File
| Dir (entries : list (string * Node)).
#[local] Set Elimination Schemes.

Definition nodeIsDir (n : Node) : bool :=
  match n with
  | File => false
  | Dir _ => true
  end.

Record FileInfo : Type := mkInfo { IsDir : bool }.

(** The non-nil values a [WalkFunc] returns. *)
Inductive WalkErr : Type :=
| SkipDir
| Fail (e : error).

Definition isSkipDir (e : WalkErr) : bool :=
  match e with
  | SkipDir => true
  | Fail _ => false
  end.

(** A [WalkFunc] closes over mutable variables; they are threaded as the
    state [St]. *)
Definition WalkFunc (St : Type) : Type :=
  Path -> FileInfo -> St -> St * option WalkErr.

(** [walk], the recursion of [Walk]: the callback sees the directory
    first, then each entry in turn.  As documented for [WalkFunc], [SkipDir]
    returned on a directory skips the contents of that directory, and
    [SkipDir] returned on a non-directory skips the remaining files of the
    containing directory: it is handed to the caller, which leaves its
    loop unless the entry is a directory. *)
Fixpoint walk {St} (walkFn : WalkFunc St) (path : Path) (n : Node) (st : St)
  : St * option WalkErr :=
  match n with
  | File => walkFn path (mkInfo false) st
  | Dir entries =>
      let '(st1, err1) := walkFn path (mkInfo true) st in
      match err1 with
      | Some e => (st1, Some e)
      | None =>
          (fix loop (es : list (string * Node)) (st : St) {struct es}
             : St * option WalkErr :=
             match es with
             | [] => (st, None)
             | (name, child) :: rest =>
                 let filename := Join path (relPath [name]) in
                 let '(st', err) := walk walkFn filename child st in
                 match err with
                 | None => loop rest st'
                 | Some e =>
                     if negb (nodeIsDir child) || negb (isSkipDir e)
                     then (st', Some e)
                     else loop rest st'
                 end
             end) entries st1
      end
  end.

(** The loop over the names of one directory, as a function of its own. *)
Fixpoint walkEntries {St} (walkFn : WalkFunc St) (path : Path)
    (es : list (string * Node)) (st : St) : St * option WalkErr :=
  match es with
  | [] => (st, None)
  | (name, child) :: rest =>
      let filename := Join path (relPath [name]) in
      let '(st', err) := walk walkFn filename child st in
      match err with
      | None => walkEntries walkFn path rest st'
      | Some e =>
          if negb (nodeIsDir child) || negb (isSkipDir e)
          then (st', Some e)
          else walkEntries walkFn path rest st'
      end
  end.

(** [Walk root fn] over the tree found at [root]. *)
Definition Walk {St} (tree : Node) (root : Path) (walkFn : WalkFunc St)
    (st : St) : St * option error :=
  let '(st', err) := walk walkFn root tree st in
  match err with
  | None => (st', None)
  | Some SkipDir => (st', None)
  | Some (Fail e) => (st', Some e)
  end.

End filepath.

Export filepath.

(** ** Package match *)

Module Match.

(** [match.Test] is a predicate on project-relative paths. *)
Definition Test : Type := string -> bool.

(** The wildcard classes of a pattern, and its literal characters. *)
Inductive token : Type :=
| Lit (c : ascii)
| Question
| Star
| StarStar.

(** Modelled from the spec: the scanner of the package [match], whose
    source file is missing.  It reads the pattern left to right and
    translates [**], [*], [?] and literal characters. *)
Fixpoint compile (pattern : string) : list token :=
  match pattern with
  | EmptyString => []
  | String "*" (String "*" rest) => StarStar :: compile rest
  | String "*" rest => Star :: compile rest
  | String "?" rest => Question :: compile rest
  | String c rest => Lit c :: compile rest
  end.

Definition isSeparator (c : ascii) : bool := Ascii.eqb c "/".

(** Modelled from the spec: the backtracking matcher of the package
    [match], whose source file is missing.  The whole path has to be
    consumed; [?] takes one character that is not a separator, [*] any run
    of such characters, [**] any run of characters. *)
Fixpoint matches (ts : list token) (path : string) {struct ts} : bool :=
  match ts with
  | [] =>
      match path with
      | EmptyString => true
      | String _ _ => false
      end
  | Lit c :: ts' =>
      match path with
      | EmptyString => false
      | String d rest => Ascii.eqb c d && matches ts' rest
      end
  | Question :: ts' =>
      match path with
      | EmptyString => false
      | String d rest => negb (isSeparator d) && matches ts' rest
      end
  | Star :: ts' =>
      (fix star (s : string) : bool :=
         matches ts' s
         || match s with
            | EmptyString => false
            | String d rest => negb (isSeparator d) && star rest
            end) path
  | StarStar :: ts' =>
      (fix starstar (s : string) : bool :=
         matches ts' s
         || match s with
            | EmptyString => false
            | String _ rest => starstar rest
            end) path
  end.

(** Modelled from the spec: [match.New], whose source file is missing.
    The grammar of the spec has the three wildcards and literals only, so
    every pattern compiles. *)
Definition New (pattern : string) : result Test :=
  Ok (fun path => matches (compile pattern) path).

End Match.

(** ** Package licensecheck *)

Module licensecheck.

(** One entry of [Coverage.Match]: the identifier and the span. *)
Record Match : Type := mkMatch { ID : string; Start : nat; End_ : nat }.

End licensecheck.

(** ** The environment *)

(** [parsed], the local type of [UnmarshalJSON]. *)
Record parsed : Type := mkParsed { Include : list string; Exclude : list string }.

(** What [encoding/json] finds for one [Config] object before the custom
    unmarshaller runs: the text under the key [paths] when the key is
    there, and the decoded [licenses]. *)
Record RawConfig : Type :=
  mkRaw { rawPaths : option string; rawLicenses : list string }.

(** Everything the package imports.  [Tree] is the directory found at a
    path, all of it readable; [fsRead] is what reading a file gives;
    [schedule] is the order in which the goroutines started for a file list
    happen to run. *)
Record World : Type := mkWorld {
  Abs : string -> result Path;
  Tree : Path -> Node;
  fsRead : Path -> result string;
  jsonRules : string -> result (list parsed);
  jsonConfig : string -> result RawConfig;
  jsonConfigs : string -> result (list RawConfig);
  Scan : string -> list licensecheck.Match;
  matchNew : string -> result Match.Test;
  schedule : list Path -> list nat
}.

(** The observable steps of a run, in the order they happen. *)
Inductive Event : Type :=
| EvReadFile (path : Path)
| EvWalk (root : Path)
| EvPrintf (out : string).

(** A computation with its trace. *)
Definition M (A : Type) : Type := A * list Event.

Definition ret {A} (a : A) : M A := (a, []).

Definition bind {A B} (m : M A) (k : A -> M B) : M B :=
  let '(a, t1) := m in
  let '(b, t2) := k a in
  (b, t1 ++ t2).

Definition emit (e : Event) : M unit := (tt, [e]).

Declare Scope trace_scope.
Delimit Scope trace_scope with trace.
Notation "'let*' x ':=' m 'in' k" := (bind m (fun x => k))
  (at level 10, x name, m at level 100, k at level 200, only parsing)
  : trace_scope.
Local Open Scope trace_scope.

Definition nl : string := String (ascii_of_nat 10) EmptyString.

(** ** Package checker *)

Definition ConfigFileName : string := "license-checker.cfg".

(** [rule]: a search path predicate; [cond] is the value to return if the
    rule neither includes nor excludes. *)
Definition rule : Type := string -> bool -> bool.

Definition searchRules : Type := list rule.

Record Config : Type := mkConfig { Paths : searchRules; Licenses : list string }.

Definition Configs : Type := list Config.

(** The loop [for i, pattern := range ...] that fills [tests]. *)
Fixpoint compileTests (New : string -> result Match.Test) (patterns : list string)
  : result (list Match.Test) :=
  match patterns with
  | [] => Ok []
  | pattern :: rest =>
      match New pattern with
      | Err e => Err e
      | Ok test =>
          match compileTests New rest with
          | Err e => Err e
          | Ok tests => Ok (test :: tests)
          end
      end
  end.

(** The closure appended for an [include] entry. *)
Definition includeFunc (tests : list Match.Test) : rule :=
  fun path cond =>
    (fix loop (ts : list Match.Test) : bool :=
       match ts with
       | [] => cond
       | test :: rest => if test path then true else loop rest
       end) tests.

(** The closure appended for an [exclude] entry. *)
Definition excludeFunc (tests : list Match.Test) : rule :=
  fun path cond =>
    (fix loop (ts : list Match.Test) : bool :=
       match ts with
       | [] => cond
       | test :: rest => if test path then false else loop rest
       end) tests.

(** The loop [for _, rule := range p] of [UnmarshalJSON], with [l] as
    accumulator. *)
Fixpoint unmarshalRules (New : string -> result Match.Test) (p : list parsed)
    (l : searchRules) : result searchRules :=
  match p with
  | [] => Ok l
  | rule :: rest =>
      if (0 <? List.length (Include rule))%nat
         && (0 <? List.length (Exclude rule))%nat
      then Err ErrRuleConflict
      else if (0 <? List.length (Include rule))%nat
      then match compileTests New (Include rule) with
           | Err e => Err e
           | Ok tests => unmarshalRules New rest (l ++ [includeFunc tests])
           end
      else if (0 <? List.length (Exclude rule))%nat
      then match compileTests New (Exclude rule) with
           | Err e => Err e
           | Ok tests => unmarshalRules New rest (l ++ [excludeFunc tests])
           end
      else unmarshalRules New rest l
  end.

Definition UnmarshalJSON (w : World) (body : string) : result searchRules :=
  match jsonRules w body with
  | Err e => Err e
  | Ok p => unmarshalRules (matchNew w) p []
  end.

(** [shouldExamine] returns true if the file at [absPath] should be
    scanned. *)
Definition shouldExamine (c : Config) (root absPath : Path) : bool :=
  let root := ToSlash root in
  let absPath := ToSlash absPath in
  match Rel root absPath with
  | Err _ => false
  | Ok relPath =>
      fold_left (fun res rule => rule (text relPath) res) (Paths c) true
  end.

(** [allowsLicense] returns true if the license type with the given name
    is permitted. *)
Definition allowsLicense (c : Config) (name : string) : bool :=
  (fix loop (ls : list string) : bool :=
     match ls with
     | [] => false
     | l :: rest => if String.eqb l name then true else loop rest
     end) (Licenses c).

(** [ioutil.ReadFile]. *)
Definition ReadFile (w : World) (path : Path) : M (result string) :=
  let* _ := emit (EvReadFile path) in
  ret (fsRead w path).

(** [fmt.Printf]. *)
Definition Printf (out : string) : M unit := emit (EvPrintf out).

(** The function literal handed to [filepath.Walk] by [gatherFiles]; the
    captured slice [files] is the state. *)
Definition gatherFn (root : Path) (cfg : Config) : WalkFunc (list Path) :=
  fun path info files =>
    let rel := match Rel root path with
               | Ok rel => rel
               | Err _ => path
               end in
    if String.eqb (text rel) ".git" then (files, Some SkipDir)
    else if String.eqb (text rel) ConfigFileName then (files, None)
    else if negb (shouldExamine cfg root path) then (files, None)
    else if negb (IsDir info) then (files ++ [rel], None)
    else (files, None).

(** [gatherFiles] walks all files and subdirectories from [root], returning
    those that [shouldExamine] returns true for. *)
Definition gatherFiles (w : World) (root : Path) (cfg : Config)
  : M (result (list Path)) :=
  let* _ := emit (EvWalk root) in
  let '(files, err) := Walk (Tree w root) root (gatherFn root cfg) [] in
  match err with
  | Some e => ret (Err e)
  | None => ret (Ok files)
  end.

(** The loop [for _, match := range cov.Match] of [examine]. *)
Fixpoint checkMatches (cfg : Config) (path : Path)
    (ms : list licensecheck.Match) : option error :=
  match ms with
  | [] => None
  | m :: rest =>
      if negb (allowsLicense cfg (licensecheck.ID m))
      then Some (ErrUnsupported (text path) (licensecheck.ID m))
      else checkMatches cfg path rest
  end.

(** [examine] checks the file at [path] for any license violations. *)
Definition examine (w : World) (root path : Path) (cfg : Config)
  : M (option error) :=
  let* r := ReadFile w (Join root path) in
  match r with
  | Err err => ret (Some (ErrReadFile (text path) err))
  | Ok body =>
      let cov := Scan w body in
      if (List.length cov =? 0)%nat
      then ret (Some (ErrNoLicense (text path)))
      else ret (checkMatches cfg path cov)
  end.

(** [removeNilErrs] returns a new slice without the nil entries. *)
Definition removeNilErrs (errs : list (option error)) : list error :=
  fold_left (fun out err =>
               match err with
               | Some e => out ++ [e]
               | None => out
               end) errs [].

(** One goroutine of [runConfig]: it examines [files[i]] and stores the
    outcome in [errs[i]]. *)
Definition goroutine (w : World) (root : Path) (cfg : Config)
    (files : list Path) (i : nat) (errs : list (option error))
  : M (list (option error)) :=
  match files !! i with
  | Some file =>
      let* r := examine w root file cfg in
      ret (<[i := r]> errs)
  | None => ret errs
  end.

(** The goroutines run to completion in the order [sched]; [wg.Wait]
    returns after the last one. *)
Fixpoint runGoroutines (w : World) (root : Path) (cfg : Config)
    (files : list Path) (sched : list nat) (errs : list (option error))
  : M (list (option error)) :=
  match sched with
  | [] => ret errs
  | i :: rest =>
      let* errs' := goroutine w root cfg files i errs in
      runGoroutines w root cfg files rest errs'
  end.

(** [runConfig] gathers the source files listed in the config, scans them
    for their licenses, and returns the violations found. *)
Definition runConfig (w : World) (cfg : Config) (root : Path) : M (list error) :=
  let* r := gatherFiles w root cfg in
  match r with
  | Err err => ret [ErrGather err]
  | Ok files =>
      let* _ := Printf ("Scanning " ++ itoa (List.length files)
                        ++ " files..." ++ nl) in
      let* errs := runGoroutines w root cfg files (schedule w files)
                     (replicate (List.length files) None) in
      ret (removeNilErrs errs)
  end.

(** What the decoder does for one [Config] object: the custom unmarshaller
    runs on the text of [paths]; its error ends the decoding. *)
Definition decodeConfig (w : World) (raw : RawConfig) : result Config :=
  match rawPaths raw with
  | None => Ok (mkConfig [] (rawLicenses raw))
  | Some body =>
      match UnmarshalJSON w body with
      | Err e => Err e
      | Ok l => Ok (mkConfig l (rawLicenses raw))
      end
  end.

Fixpoint decodeConfigs (w : World) (raws : list RawConfig) : result Configs :=
  match raws with
  | [] => Ok []
  | raw :: rest =>
      match decodeConfig w raw with
      | Err e => Err e
      | Ok cfg =>
          match decodeConfigs w rest with
          | Err e => Err e
          | Ok cfgs => Ok (cfg :: cfgs)
          end
      end
  end.

Definition cutset : string :=
  String " " (String (ascii_of_nat 10) (String (ascii_of_nat 9) EmptyString)).

(** [loadConfigs] loads a config file at [root]. *)
Definition loadConfigs (w : World) (root : Path) : M (result Configs) :=
  let path := Join root (relPath [ConfigFileName]) in
  let* r := ReadFile w path in
  match r with
  | Err err => ret (Err err)
  | Ok cfgBody =>
      if HasPrefix (TrimLeft cfgBody cutset) "{"
      then match jsonConfig w cfgBody with
           | Err err => ret (Err err)
           | Ok raw =>
               match decodeConfig w raw with
               | Err err => ret (Err err)
               | Ok cfg => ret (Ok ([] ++ [cfg]))
               end
           end
      else match jsonConfigs w cfgBody with
           | Err err => ret (Err err)
           | Ok raws => ret (decodeConfigs w raws)
           end
  end.

(** The text built in [msg] when a config has violations. *)
Definition aggregate (errs : list error) : string :=
  fold_left (fun msg err => (msg ++ "* " ++ Error err ++ nl)%string) errs
    (itoa (List.length errs) ++ " errors:" ++ nl)%string.

(** The loop [for _, cfg := range cfgs] of [Check] and what follows it. *)
Fixpoint checkConfigs (w : World) (root : Path) (cfgs : Configs)
  : M (option error) :=
  match cfgs with
  | [] =>
      let* _ := Printf ("No license issues found" ++ nl) in
      ret None
  | cfg :: rest =>
      let* errs := runConfig w cfg root in
      if (0 <? List.length errs)%nat
      then ret (Some (ErrAggregate (aggregate errs)))
      else checkConfigs w root rest
  end.

(** [Check] loads the config file in [dir], and then scans all files for
    license correctness. *)
Definition Check (w : World) (dir : string) : M (option error) :=
  match Abs w dir with
  | Err err => ret (Some (ErrAbs err))
  | Ok root =>
      let* r := loadConfigs w root in
      match r with
      | Err err => ret (Some (ErrLoadConfig err))
      | Ok cfgs => checkConfigs w root cfgs
      end
  end.

(** ** The walker of main.go *)

Module Legacy.

(** The function literal of [gatherFiles] in [main.go], the program before
    the package [checker] was split off; [main] now calls [checker.Check].
    Its rules use [path.Match] on absolute paths; their decision is the
    parameter [shouldExamine].  A directory the rules exclude is skipped
    with everything below it. *)
Definition gatherFn (shouldExamine : Path -> Path -> bool) (root : Path)
  : WalkFunc (list Path) :=
  fun path info files =>
    let rel := match Rel root path with
               | Ok rel => rel
               | Err _ => path
               end in
    if String.eqb (text rel) ".git" then (files, Some SkipDir)
    else if String.eqb (text rel) ConfigFileName then (files, None)
    else if negb (shouldExamine root path)
    then if IsDir info then (files, Some SkipDir) else (files, None)
    else if negb (IsDir info) then (files ++ [rel], None)
    else (files, None).

End Legacy.

(** ** Reference definitions, after the specification *)

(** *** RuleSet (section 4.2) *)

(** A rule is a tagged value holding its compiled patterns. *)
Inductive Rule : Type :=
| IncludeOf (patterns : list Match.Test)
| ExcludeOf (patterns : list Match.Test).

Definition anyMatches (patterns : list Match.Test) (path : string) : bool :=
  existsb (fun test => test path) patterns.

(** One step of the reduction: a matching include sets the decision, a
    matching exclude clears it, anything else passes it through. *)
Definition override (path : string) (decision : bool) (r : Rule) : bool :=
  match r with
  | IncludeOf patterns => if anyMatches patterns path then true else decision
  | ExcludeOf patterns => if anyMatches patterns path then false else decision
  end.

Definition evaluate (rs : list Rule) (path : string) : bool :=
  fold_left (override path) rs true.

(** [declares New p rs]: the entries [p] declare the rules [rs], in the
    same order; an entry with no pattern declares nothing. *)
Inductive declares (New : string -> result Match.Test)
  : list parsed -> list Rule -> Prop :=
| declares_nil : declares New [] []
| declares_include entry tests p rs :
    Include entry <> [] -> Exclude entry = [] ->
    compileTests New (Include entry) = Ok tests ->
    declares New p rs ->
    declares New (entry :: p) (IncludeOf tests :: rs)
| declares_exclude entry tests p rs :
    Include entry = [] -> Exclude entry <> [] ->
    compileTests New (Exclude entry) = Ok tests ->
    declares New p rs ->
    declares New (entry :: p) (ExcludeOf tests :: rs)
| declares_skip entry p rs :
    Include entry = [] -> Exclude entry = [] ->
    declares New p rs ->
    declares New (entry :: p) rs.

(** The closure the decoder builds for a declared rule. *)
Definition closureOf (r : Rule) : rule :=
  match r with
  | IncludeOf tests => includeFunc tests
  | ExcludeOf tests => excludeFunc tests
  end.

(** [compiled New patterns tests]: the tests are the pattern strings
    compiled by [match.New], one test for each string, in the order of the
    strings. *)
Definition compiled (New : string -> result Match.Test)
    (patterns : list string) (tests : list Match.Test) : Prop :=
  Forall2 (fun pattern test => New pattern = Ok test) patterns tests.

(** [ruleSet New p rs]: [rs] is the RuleSet written in the entries [p],
    read off their pattern strings: an entry with include patterns only is
    an [IncludeOf] of these patterns, an entry with exclude patterns only
    an [ExcludeOf] of them, and an entry with no pattern is no rule. *)
Inductive ruleSet (New : string -> result Match.Test)
  : list parsed -> list Rule -> Prop :=
| ruleSet_nil : ruleSet New [] []
| ruleSet_include entry tests p rs :
    Include entry <> [] -> Exclude entry = [] ->
    compiled New (Include entry) tests ->
    ruleSet New p rs ->
    ruleSet New (entry :: p) (IncludeOf tests :: rs)
| ruleSet_exclude entry tests p rs :
    Include entry = [] -> Exclude entry <> [] ->
    compiled New (Exclude entry) tests ->
    ruleSet New p rs ->
    ruleSet New (entry :: p) (ExcludeOf tests :: rs)
| ruleSet_skip entry p rs :
    Include entry = [] -> Exclude entry = [] ->
    ruleSet New p rs ->
    ruleSet New (entry :: p) rs.

(** The pairs of paths for which no relative form can be told from the
    names alone: only one of the two is rooted, or the base, after the
    elements [common] it shares with the target, steps back with [..]
    where the target does not. *)
Inductive unrelatable (base targ : Path) : Prop :=
| unrelatable_rooted :
    isAbs base <> isAbs targ -> unrelatable base targ
| unrelatable_dotdot common rest target :
    isAbs base = isAbs targ ->
    elems base = common ++ ".." :: rest ->
    elems targ = common ++ target ->
    (forall more, target <> ".." :: more) ->
    unrelatable base targ.

(** *** PatternMatcher (sections 3 and 4.1) *)



(** *** FileWalker (section 4.3) *)

(** The non-directory entries below a node, by their elements relative to
    the root, in the order of the walk. *)
Fixpoint nodeFiles (prefix : list string) (n : Node) : list (list string) :=
  match n with
  | File => [prefix]
  | Dir entries =>
      (fix loop (es : list (string * Node)) : list (list string) :=
         match es with
         | [] => []
         | (name, child) :: rest =>
             nodeFiles (prefix ++ [name]) child ++ loop rest
         end) entries
  end.

Fixpoint entriesFiles (prefix : list string) (es : list (string * Node))
  : list (list string) :=
  match es with
  | [] => []
  | (name, child) :: rest =>
      nodeFiles (prefix ++ [name]) child ++ entriesFiles prefix rest
  end.

(** The candidates among the entries of the root: nothing at or under a
    directory [.git], not the configuration file; a non-directory [.git]
    ends the listing. *)
Fixpoint rootCandidates (es : list (string * Node)) : list (list string) :=
  match es with
  | [] => []
  | (name, child) :: rest =>
      if String.eqb name ".git"
      then if nodeIsDir child then rootCandidates rest else []
      else if String.eqb name ConfigFileName
      then match child with
           | File => rootCandidates rest
           | Dir sub => entriesFiles [name] sub ++ rootCandidates rest
           end
      else nodeFiles [name] child ++ rootCandidates rest
  end.

Definition candidates (tree : Node) : list (list string) :=
  match tree with
  | File => [[]]
  | Dir es => rootCandidates es
  end.

(** [fileAt es segs]: following the names [segs] from the entries [es]
    leads to a non-directory. *)
Fixpoint fileAt (es : list (string * Node)) (segs : list string) : bool :=
  match segs with
  | [] => false
  | [name] =>
      existsb (fun e => String.eqb (fst e) name && negb (nodeIsDir (snd e))) es
  | name :: rest =>
      existsb (fun e => String.eqb (fst e) name
                        && match snd e with
                           | File => false
                           | Dir sub => fileAt sub rest
                           end) es
  end.

(** The root lists a non-directory named [.git]. *)
Definition gitFileAtRoot (tree : Node) : bool :=
  match tree with
  | File => false
  | Dir es => fileAt es [".git"]
  end.

(** The path of the entry reached from [root] through the names [segs]. *)
Definition entryPath (root : Path) (segs : list string) : Path :=
  Join root (relPath segs).

(** The decision the rules take on an entry. *)
Definition selects (cfg : Config) (root : Path) (segs : list string) : bool :=
  shouldExamine cfg root (entryPath root segs).

Fixpoint hasSeparator (s : string) : bool :=
  match s with
  | EmptyString => false
  | String c rest => Match.isSeparator c || hasSeparator rest
  end.

(** The relative path of the entry is none of the two reserved names. *)
Definition unreserved (segs : list string) : Prop :=
  String.eqb (text (relPath segs)) ".git" = false
  /\ String.eqb (text (relPath segs)) ConfigFileName = false.

(** The entry [segs] is at or under the entry [.git] of the root. *)
Definition underGit (segs : list string) : Prop :=
  exists rest, segs = ".git" :: rest.

(** [p] is [path] or lies below it. *)
Definition extends (path p : Path) : Prop :=
  exists ext, p = entryPath path ext.

(** The path of the config file of a root. *)
Definition configPath (root : Path) : Path :=
  Join root (relPath [ConfigFileName]).

(** A rule entry that carries both lists. *)
Definition conflicts (entry : parsed) : Prop :=
  Include entry <> [] /\ Exclude entry <> [].

(** The callback of a walk, made to record the paths it is called on. *)
Definition recording {St} (walkFn : WalkFunc St) : WalkFunc (St * list Path) :=
  fun path info st =>
    let '(st', err) := walkFn path info (fst st) in
    ((st', snd st ++ [path]), err).

(** The paths [gatherFiles] has its callback called on. *)
Definition visited (w : World) (root : Path) (cfg : Config) : list Path :=
  snd (fst (Walk (Tree w root) root (recording (gatherFn root cfg)) ([], []))).

(** [p] lies strictly below the entry [name] of [root]. *)
Definition below (root : Path) (name : string) (p : Path) : Prop :=
  exists rest, rest <> [] /\ p = Join root (relPath (name :: rest)).

(** *** ScanOrchestrator (section 4.4) *)

(** The sequential reference: one slot per file, in input order. *)
Fixpoint scanSequential (w : World) (root : Path) (cfg : Config)
    (files : list Path) : list (option error) :=
  match files with
  | [] => []
  | file :: rest =>
      fst (examine w root file cfg) :: scanSequential w root cfg rest
  end.

(** The failures of a result list, in the order of the list. *)
Fixpoint failures (results : list (option error)) : list error :=
  match results with
  | [] => []
  | Some e :: rest => e :: failures rest
  | None :: rest => failures rest
  end.

(** The four outcomes of a scan. *)
Inductive Outcome : Type :=
| OkFile
| ReadFailure (cause : error)
| NoLicenseDetected
| LicenseNotPermitted (id : string).

(** The classification of section 4.4, from what reading the file gives,
    what the oracle detects and what the config permits. *)
Definition classify (permitted : list string) (content : result string)
    (oracle : string -> list licensecheck.Match) : Outcome :=
  match content with
  | Err cause => ReadFailure cause
  | Ok body =>
      match oracle body with
      | [] => NoLicenseDetected
      | detected =>
          match find (fun m => negb (existsb (String.eqb (licensecheck.ID m))
                                       permitted)) detected with
          | Some m => LicenseNotPermitted (licensecheck.ID m)
          | None => OkFile
          end
      end
  end.

(** The scan result that stands for an outcome. *)
Definition report (path : Path) (o : Outcome) : option error :=
  match o with
  | OkFile => None
  | ReadFailure cause => Some (ErrReadFile (text path) cause)
  | NoLicenseDetected => Some (ErrNoLicense (text path))
  | LicenseNotPermitted id => Some (ErrUnsupported (text path) id)
  end.

(** *** Run aggregator (section 4.5) *)

(** What the decoder finds in the text of the config file: one object, or
    a list of them. *)
Definition rawConfigs (w : World) (cfgBody : string) : result (list RawConfig) :=
  if HasPrefix (TrimLeft cfgBody cutset) "{"
  then match jsonConfig w cfgBody with
       | Err err => Err err
       | Ok raw => Ok [raw]
       end
  else jsonConfigs w cfgBody.

(** The aggregate text: the count, then one line per failure. *)
Fixpoint failureLines (errs : list error) : string :=
  match errs with
  | [] => EmptyString
  | e :: rest => "* " ++ Error e ++ nl ++ failureLines rest
  end.

Definition aggregateText (errs : list error) : string :=
  itoa (List.length errs) ++ " errors:" ++ nl ++ failureLines errs.

(** The trace of one processed config starts with its walk. *)
Definition walks (t : list Event) : nat :=
  List.length
    (List.filter (fun e => match e with EvWalk _ => true | _ => false end) t).

Definition reads (t : list Event) : list Path :=
  flat_map (fun e => match e with EvReadFile p => [p] | _ => [] end) t.

(** ** Concrete projects *)

Module Demo.

Definition root : Path := mkPath true ["proj"].

(** The example of the README: two exclusions, then one inclusion. *)
Definition entries : list parsed :=
  [ mkParsed [] ["out/*"; "build/*"]; mkParsed ["out/foo.txt"] [] ].

(** An entry that carries both lists. *)
Definition conflicting : list parsed :=
  [ mkParsed ["src/**"] []; mkParsed ["a"] ["b"] ].

Definition lookupText (files : list (string * string)) (p : Path)
  : result string :=
  match find (fun f => String.eqb (fst f) (text p)) files with
  | Some f => Ok (snd f)
  | None => Err (ErrExt ("open " ++ text p ++ ": no such file or directory"))
  end.

(** An oracle that knows two headers. *)
Definition oracle (body : string) : list licensecheck.Match :=
  if String.prefix "MIT" body then [licensecheck.mkMatch "MIT" 0 3]
  else if String.prefix "GPL+MIT" body
  then [licensecheck.mkMatch "GPL-3.0" 0 3; licensecheck.mkMatch "MIT" 4 7]
  else [].

(** A project: its tree, the content of its readable files, and what the
    decoder finds in its config.  The last goroutine started finishes
    first. *)
Definition world (tree : Node) (files : list (string * string))
    (p : list parsed) (licenses : list string) : World :=
  {| Abs := fun _ => Ok root;
     Tree := fun _ => tree;
     fsRead := lookupText files;
     jsonRules := fun _ => Ok p;
     jsonConfig := fun _ => Ok (mkRaw (Some "[paths]") licenses);
     jsonConfigs := fun _ => Ok [mkRaw (Some "[paths]") licenses];
     Scan := oracle;
     matchNew := Match.New;
     schedule := fun fs => rev (seq 0 (List.length fs)) |}.

Definition outTree : Node :=
  Dir [ ("build", Dir [("x", File)]);
        ("license-checker.cfg", File);
        ("out", Dir [("bar.txt", File); ("foo.txt", File)]) ].

(** The same project checked out as a git worktree: [.git] is a file. *)
Definition worktree : Node :=
  Dir [ (".git", File);
        ("build", Dir [("x", File)]);
        ("license-checker.cfg", File);
        ("out", Dir [("bar.txt", File); ("foo.txt", File)]) ].

(** The same project as a clone: [.git] is a directory. *)
Definition clone : Node :=
  Dir [ (".git", Dir [("HEAD", File); ("hooks", Dir [("pre-commit", File)])]);
        ("build", Dir [("x", File)]);
        ("license-checker.cfg", File);
        ("out", Dir [("bar.txt", File); ("foo.txt", File)]) ].

Definition outFiles : list (string * string) :=
  [ ("/proj/license-checker.cfg", "{ paths, licenses }");
    ("/proj/out/foo.txt", "MIT License");
    ("/proj/out/bar.txt", "no header");
    ("/proj/build/x", "GPL+MIT") ].

Definition outWorld : World := world outTree outFiles entries ["MIT"].
Definition worktreeWorld : World := world worktree outFiles entries ["MIT"].
Definition cloneWorld : World := world clone outFiles entries ["MIT"].

(** The test case [bad-missing-license]. *)
Definition srcTree : Node :=
  Dir [ ("license-checker.cfg", File);
        ("src", Dir [("missing-license.cpp", File); ("ok.cpp", File)]) ].

Definition srcFiles : list (string * string) :=
  [ ("/proj/license-checker.cfg", "{ licenses }");
    ("/proj/src/ok.cpp", "MIT License");
    ("/proj/src/missing-license.cpp", "int main() {}") ].

Definition srcWorld : World := world srcTree srcFiles [] ["MIT"].

(** The test case [bad-no-config]. *)
Definition noConfigWorld : World :=
  world (Dir [("src", Dir [("ok.cpp", File)])])
        [("/proj/src/ok.cpp", "MIT License")] [] ["MIT"].

(** A config whose second rule entry carries both lists. *)
Definition conflictWorld : World := world srcTree srcFiles conflicting ["MIT"].

(** The same config read with a matcher that rejects one pattern. *)
Definition pickyWorld : World :=
  {| Abs := Abs conflictWorld;
     Tree := Tree conflictWorld;
     fsRead := fsRead conflictWorld;
     jsonRules := jsonRules conflictWorld;
     jsonConfig := jsonConfig conflictWorld;
     jsonConfigs := jsonConfigs conflictWorld;
     Scan := Scan conflictWorld;
     matchNew := fun pattern =>
                   if String.eqb pattern "src/**"
                   then Err (ErrExt "bad pattern")
                   else Match.New pattern;
     schedule := schedule conflictWorld |}.

(** A project with an unreadable file and nothing permitted. *)
Definition strictWorld : World :=
  world (Dir [ ("a.txt", File); ("b.txt", File); ("c.txt", File);
               ("license-checker.cfg", File) ])
        [ ("/proj/license-checker.cfg", "{ }");
          ("/proj/a.txt", "GPL+MIT");
          ("/proj/c.txt", "MIT License") ] [] [].

(** A clone whose only rule includes everything. *)
Definition everythingWorld : World :=
  world clone outFiles [mkParsed ["**"] []] ["MIT"].

(** The RuleSet written in [entries]. *)
Definition readmeRules : list Rule :=
  [ ExcludeOf [ fun path => Match.matches (Match.compile "out/*") path;
                fun path => Match.matches (Match.compile "build/*") path ];
    IncludeOf [ fun path => Match.matches (Match.compile "out/foo.txt") path ] ].

(** The first config a project loads. *)
Definition configOf (w : World) : Config :=
  match fst (loadConfigs w root) with
  | Ok (cfg :: _) => cfg
  | _ => mkConfig [] []
  end.

End Demo.

(** * The rest of the program *)

(** ** Directories that cannot be read *)

Module Fs.

(** A tree in which reading the names of a directory may fail.  Every
    entry that is listed can still be examined with [lstat]. *)
#[local] Unset Elimination Schemes.
Inductive Node : Type :=
| File
| Dir (readErr : option error) (entries : list (string * Node)).
#[local] Set Elimination Schemes.

(** A [WalkFunc] with its third argument, the error of reading the
    directory it is called on. *)
Definition WalkFunc (St : Type) : Type :=
  Path -> FileInfo -> option error -> St -> St * option WalkErr.

(** [walk]: the names are read before the callback is called; when either
    of the two reports an error the callback's answer is returned and the
    directory is not entered. *)
Fixpoint walk {St} (walkFn : WalkFunc St) (path : Path) (n : Node) (st : St)
  : St * option WalkErr :=
  match n with
  | File => walkFn path (mkInfo false) None st
  | Dir readErr entries =>
      let '(st1, err1) := walkFn path (mkInfo true) readErr st in
      match readErr, err1 with
      | None, None =>
          (fix loop (es : list (string * Node)) (st : St) {struct es}
             : St * option WalkErr :=
             match es with
             | [] => (st, None)
             | (name, child) :: rest =>
                 let filename := Join path (relPath [name]) in
                 let '(st', err) := walk walkFn filename child st in
                 match err with
                 | None => loop rest st'
                 | Some e =>
                     if negb (match child with File => false | Dir _ _ => true end)
                        || negb (isSkipDir e)
                     then (st', Some e)
                     else loop rest st'
                 end
             end) entries st1
      | _, _ => (st1, err1)
      end
  end.

Definition Walk {St} (tree : Node) (root : Path) (walkFn : WalkFunc St)
    (st : St) : St * option error :=
  let '(st', err) := walk walkFn root tree st in
  match err with
  | None => (st', None)
  | Some SkipDir => (st', None)
  | Some (Fail e) => (st', Some e)
  end.

(** The function literal of [gatherFiles] with all its parameters: the
    [err] it receives is shadowed at once by the one of [filepath.Rel]. *)
Definition gatherFn (root : Path) (cfg : Config) : WalkFunc (list Path) :=
  fun path info _ files =>
    let rel := match Rel root path with
               | Ok rel => rel
               | Err _ => path
               end in
    if String.eqb (text rel) ".git" then (files, Some SkipDir)
    else if String.eqb (text rel) ConfigFileName then (files, None)
    else if negb (shouldExamine cfg root path) then (files, None)
    else if negb (IsDir info) then (files ++ [rel], None)
    else (files, None).

(** [gatherFiles] on such a tree. *)
Definition gatherFiles (tree : Node) (root : Path) (cfg : Config)
  : result (list Path) :=
  let '(files, err) := Walk tree root (gatherFn root cfg) [] in
  match err with
  | Some e => Err e
  | None => Ok files
  end.

(** The tree as the walk sees it: a directory whose names cannot be read
    shows no entry. *)
Fixpoint readable (n : Node) : filepath.Node :=
  match n with
  | File => filepath.File
  | Dir readErr entries =>
      match readErr with
      | Some _ => filepath.Dir []
      | None =>
          filepath.Dir
            ((fix loop (es : list (string * Node))
                : list (string * filepath.Node) :=
                match es with
                | [] => []
                | (name, child) :: rest => (name, readable child) :: loop rest
                end) entries)
      end
  end.

Fixpoint readableEntries (es : list (string * Node))
  : list (string * filepath.Node) :=
  match es with
  | [] => []
  | (name, child) :: rest => (name, readable child) :: readableEntries rest
  end.

End Fs.

(** ** The command *)

Module Cmd.

(** What the process is started with: the outcome of [os.Getwd] and the
    value of the flag [-dir] when it is given. *)
Record Process : Type :=
  mkProcess { Getwd : result string; dirFlag : option string }.

(** [cwd] returns the current working directory, or an empty string if it
    cannot be determined. *)
Definition cwd (p : Process) : string :=
  match Getwd p with
  | Err _ => ""
  | Ok wd => wd
  end.

(** The flag [dir], whose default is [cwd()]. *)
Definition wd (p : Process) : string :=
  match dirFlag p with
  | Some dir => dir
  | None => cwd p
  end.

(** How the process ends: the exit status and what went to the error
    stream. *)
Record Exit : Type := mkExit { status : nat; stderr : string }.

(** [main] is the entry point for the program. *)
Definition main (w : World) (p : Process) : M Exit :=
  let* err := Check w (wd p) in
  match err with
  | Some e => ret (mkExit 1 (Error e ++ nl))
  | None => ret (mkExit 0 "")
  end.

End Cmd.

(** ** main.go before the package checker *)

Module MainGo.

(** The two functions of the package [path] the rules call. *)
Record Lib : Type := mkLib {
  pathJoin : string -> string -> string;
  pathMatch : string -> string -> bool * option error
}.

(** [rule]: [root] is the project root directory, [absPath] the absolute
    path to the file, [cond] the value to return if the rule neither
    includes nor excludes. *)
Definition rule : Type := string -> string -> bool -> bool.

Definition searchRules : Type := list rule.

Record Config : Type := mkConfig { Paths : searchRules; Licenses : list string }.

(** The closure appended for the [include] list of an entry; the error of
    [path.Match] is dropped. *)
Definition includeFunc (lib : Lib) (patterns : list string) : rule :=
  fun root absPath cond =>
    (fix loop (ps : list string) : bool :=
       match ps with
       | [] => cond
       | pattern :: rest =>
           if fst (pathMatch lib (pathJoin lib root pattern) absPath)
           then true
           else loop rest
       end) patterns.

(** The closure appended for the [exclude] list of an entry. *)
Definition excludeFunc (lib : Lib) (patterns : list string) : rule :=
  fun root absPath cond =>
    (fix loop (ps : list string) : bool :=
       match ps with
       | [] => cond
       | pattern :: rest =>
           if fst (pathMatch lib (pathJoin lib root pattern) absPath)
           then false
           else loop rest
       end) patterns.

(** The loop of [UnmarshalJSON]: two independent tests per entry, no
    entry is refused. *)
Fixpoint unmarshalRules (lib : Lib) (p : list parsed) (l : searchRules)
  : searchRules :=
  match p with
  | [] => l
  | rule :: rest =>
      let l1 := if (0 <? List.length (Include rule))%nat
                then l ++ [includeFunc lib (Include rule)]
                else l in
      let l2 := if (0 <? List.length (Exclude rule))%nat
                then l1 ++ [excludeFunc lib (Exclude rule)]
                else l1 in
      unmarshalRules lib rest l2
  end.

Definition UnmarshalJSON (w : World) (lib : Lib) (body : string)
  : result searchRules :=
  match jsonRules w body with
  | Err e => Err e
  | Ok p => Ok (unmarshalRules lib p [])
  end.

(** [shouldExamine] returns true if the file at [absPath] should be
    scanned. *)
Definition shouldExamine (c : Config) (root absPath : Path) : bool :=
  let root := ToSlash root in
  let absPath := ToSlash absPath in
  fold_left (fun res (rule : rule) => rule (text root) (text absPath) res)
    (Paths c) true.

(** The loop of [removeNilErrs]: [errs[i]] is read from the slice being
    overwritten, [c] counts the errors kept so far; [n] elements are left
    to visit. *)
Fixpoint compact (n i c : nat) (errs : list (option error))
  : list (option error) * nat :=
  match n with
  | 0 => (errs, c)
  | S n' =>
      match errs !! i with
      | Some (Some err) => compact n' (S i) (S c) (<[c := Some err]> errs)
      | _ => compact n' (S i) c errs
      end
  end.

(** [removeNilErrs] returns the slice [errs] with all the nil errors
    removed: the first component is what the backing array holds
    afterwards, the second the slice [errs[:c]] that is returned. *)
Definition removeNilErrs (errs : list (option error))
  : list (option error) * list (option error) :=
  let '(errs', c) := compact (List.length errs) 0 0 errs in
  (errs', take c errs').

End MainGo.

(** ** Reference definitions for the rest of the program *)

(** The last rule of the list with a pattern that matches the path. *)
Definition ruleMatches (path : string) (r : Rule) : bool :=
  match r with
  | IncludeOf patterns => anyMatches patterns path
  | ExcludeOf patterns => anyMatches patterns path
  end.

Definition lastMatching (rs : list Rule) (path : string) : option Rule :=
  find (ruleMatches path) (rev rs).

(** The patterns the decoder compiles for an entry. *)
Definition usedPatterns (entry : parsed) : list string :=
  Include entry ++ Exclude entry.

(** [match.New] compiles the pattern. *)
Definition compiles (New : string -> result Match.Test) (pattern : string)
  : Prop :=
  exists test, New pattern = Ok test.

(** A rule entry the decoder accepts: it does not carry both lists and
    each of its patterns compiles. *)
Definition accepted (New : string -> result Match.Test) (entry : parsed)
  : Prop :=
  ~ conflicts entry /\ Forall (compiles New) (usedPatterns entry).

(** The file an error is about. *)
Definition errorPath (e : error) : option string :=
  match e with
  | ErrReadFile path _ => Some path
  | ErrNoLicense path => Some path
  | ErrUnsupported path _ => Some path
  | _ => None
  end.

(** The selected files whose examination fails, in the order of the
    walk. *)
Definition failingFiles (w : World) (root : Path) (cfg : Config)
    (files : list Path) : list Path :=
  List.filter (fun file => match fst (examine w root file cfg) with
                           | Some _ => true
                           | None => false
                           end) files.

(** A space (code 32), a newline (code 10) or a tab (code 9). *)
Definition isBlank (c : ascii) : bool :=
  match nat_of_ascii c with
  | 32 | 10 | 9 => true
  | _ => false
  end.

(** The string is made of spaces, newlines and tabs only. *)
Fixpoint blank (s : string) : bool :=
  match s with
  | EmptyString => true
  | String c rest => isBlank c && blank rest
  end.

(** The decision [se] accepts the entry [segs] and every directory above
    it, the root included; the entry of the root that has the name of the
    configuration file is not asked about. *)
Definition acceptedWithAncestors (se : Path -> Path -> bool) (root : Path)
    (segs : list string) : Prop :=
  forall k, (k <= List.length segs)%nat ->
            take k segs <> [ConfigFileName] ->
            se root (entryPath root (take k segs)) = true.

(** The entry [prefix ++ ext] is accepted together with the directories
    between [prefix] and it; [prefix] itself is among them when [from] is
    0. *)
Definition acceptedFrom (se : Path -> Path -> bool) (root : Path)
    (from : nat) (prefix : list string) (p : Path) : Prop :=
  exists ext,
    p = relPath (prefix ++ ext)
    /\ forall k, (from <= k <= List.length ext)%nat ->
                 se root (entryPath root (prefix ++ take k ext)) = true.

(** The test a rule of [main.go] makes for one pattern. *)
Definition mainGoMatch (lib : MainGo.Lib) (root absPath pattern : string)
  : bool :=
  fst (MainGo.pathMatch lib (MainGo.pathJoin lib root pattern) absPath).

(** No directory of the tree lists a name twice. *)
Fixpoint distinctNames (n : Node) : bool :=
  match n with
  | File => true
  | Dir entries =>
      (fix loop (es : list (string * Node)) : bool :=
         match es with
         | [] => true
         | (name, child) :: rest =>
             negb (existsb (fun e => String.eqb (fst e) name) rest)
             && distinctNames child && loop rest
         end) entries
  end.

Fixpoint distinctEntries (es : list (string * Node)) : bool :=
  match es with
  | [] => true
  | (name, child) :: rest =>
      negb (existsb (fun e => String.eqb (fst e) name) rest)
      && distinctNames child && distinctEntries rest
  end.

(** ** More concrete projects *)

Module Demo2.

(** A project with a directory that cannot be read. *)
Definition lockedTree : Fs.Node :=
  Fs.Dir None
    [ ("license-checker.cfg", Fs.File);
      ("private", Fs.Dir (Some (ErrExt "open /proj/private: permission denied"))
                    [("secret.txt", Fs.File)]);
      ("src", Fs.Dir None [("ok.cpp", Fs.File)]) ].

(** A matcher for [main.go] that knows literal patterns only. *)
Definition literalLib : MainGo.Lib :=
  {| MainGo.pathJoin := fun root pattern => (root ++ "/" ++ pattern)%string;
     MainGo.pathMatch := fun pattern name => (String.eqb pattern name, None) |}.

(** A process started in the project directory without the flag. *)
Definition process : Cmd.Process :=
  {| Cmd.Getwd := Ok "/proj"; Cmd.dirFlag := None |}.

(** The config of the README after a newline, a tab and a space. *)
Definition indent : string :=
  String (ascii_of_nat 10) (String (ascii_of_nat 9) (String " " EmptyString)).

Definition indentedBody : string := (indent ++ "{ paths, licenses }")%string.

Definition indentedWorld : World :=
  Demo.world Demo.outTree
    [ ("/proj/license-checker.cfg", indentedBody);
      ("/proj/out/foo.txt", "MIT License") ]
    Demo.entries ["MIT"].

(** The same config after a carriage return. *)
Definition returnBody : string :=
  String (ascii_of_nat 13) "{ paths, licenses }".

Definition returnWorld : World :=
  Demo.world Demo.outTree
    [ ("/proj/license-checker.cfg", returnBody);
      ("/proj/out/foo.txt", "MIT License") ]
    Demo.entries ["MIT"].

(** A config file of blank characters only. *)
Definition blankWorld : World :=
  Demo.world Demo.outTree
    [ ("/proj/license-checker.cfg", indent);
      ("/proj/out/foo.txt", "MIT License") ]
    Demo.entries ["MIT"].

End Demo2.

(** * Properties *)

(** ** The rule engine *)

Section RuleEngine.

Variable New : string -> result Match.Test.

Lemma includeFunc_override tests path cond :
  includeFunc tests path cond = override path cond (IncludeOf tests).
Proof.
  unfold includeFunc, override, anyMatches.
  induction tests as [|test tests IH]; simpl; [reflexivity|].
  destruct (test path); simpl; [reflexivity|exact IH].
Qed.

Lemma excludeFunc_override tests path cond :
  excludeFunc tests path cond = override path cond (ExcludeOf tests).
Proof.
  unfold excludeFunc, override, anyMatches.
  induction tests as [|test tests IH]; simpl; [reflexivity|].
  destruct (test path); simpl; [reflexivity|exact IH].
Qed.

Lemma closureOf_override r path cond :
  closureOf r path cond = override path cond r.
Proof.
  destruct r; [apply includeFunc_override|apply excludeFunc_override].
Qed.

Lemma fold_closures rs path decision :
  fold_left (fun res (f : rule) => f path res) (map closureOf rs) decision
  = fold_left (override path) rs decision.
Proof.
  revert decision.
  induction rs as [|r rs IH]; intros decision; simpl; [reflexivity|].
  rewrite closureOf_override. apply IH.
Qed.

Lemma nonempty_length {A} (l : list A) :
  (0 <? List.length l)%nat = true <-> l <> [].
Proof.
  destruct l; cbn; split; intros H; try reflexivity; congruence.
Qed.

Lemma empty_length {A} (l : list A) :
  (0 <? List.length l)%nat = false <-> l = [].
Proof.
  destruct l; cbn; split; intros H; try reflexivity; congruence.
Qed.

(** The decoder appends one closure per declared rule, in order. *)
Lemma unmarshalRules_declares p :
  forall l rules,
    unmarshalRules New p l = Ok rules ->
    exists rs, declares New p rs /\ rules = l ++ map closureOf rs.
Proof.
  induction p as [|entry p IH]; intros l rules H; simpl in H.
  - injection H as <-. exists []. split; [constructor|].
    simpl. now rewrite app_nil_r.
  - destruct (0 <? List.length (Include entry))%nat eqn:Hi;
      destruct (0 <? List.length (Exclude entry))%nat eqn:He;
      simpl in H; try discriminate.
    + apply nonempty_length in Hi. apply empty_length in He.
      destruct (compileTests New (Include entry)) as [tests|] eqn:Ht;
        [|discriminate].
      destruct (IH _ _ H) as (rs & Hd & ->).
      exists (IncludeOf tests :: rs). split.
      * now apply declares_include.
      * simpl. now rewrite <- app_assoc.
    + apply empty_length in Hi. apply nonempty_length in He.
      destruct (compileTests New (Exclude entry)) as [tests|] eqn:Ht;
        [|discriminate].
      destruct (IH _ _ H) as (rs & Hd & ->).
      exists (ExcludeOf tests :: rs). split.
      * now apply declares_exclude.
      * simpl. now rewrite <- app_assoc.
    + apply empty_length in Hi. apply empty_length in He.
      destruct (IH _ _ H) as (rs & Hd & ->).
      exists rs. split; [now apply declares_skip|reflexivity].
Qed.

(** An entry that carries both lists makes the decoder fail, whatever
    stands around it. *)
Lemma unmarshalRules_conflict p :
  forall l,
    Exists (fun entry => Include entry <> [] /\ Exclude entry <> []) p ->
    exists e, unmarshalRules New p l = Err e.
Proof.
  induction p as [|entry p IH]; intros l H; [inversion H|].
  simpl.
  destruct (0 <? List.length (Include entry))%nat eqn:Hi;
    destruct (0 <? List.length (Exclude entry))%nat eqn:He; simpl.
  - eexists; reflexivity.
  - destruct (compileTests New (Include entry)); [|eexists; reflexivity].
    apply IH. inversion H as [? ? [_ Hx]|]; subst; [|assumption].
    apply empty_length in He. contradiction.
  - destruct (compileTests New (Exclude entry)); [|eexists; reflexivity].
    apply IH. inversion H as [? ? [Hx _]|]; subst; [|assumption].
    apply empty_length in Hi. contradiction.
  - apply IH. inversion H as [? ? [Hx _]|]; subst; [|assumption].
    apply empty_length in Hi. contradiction.
Qed.

(** When the entries before the conflicting one declare rules, the error is
    the conflict itself. *)
Lemma unmarshalRules_conflict_first pre rs entry post :
  forall l,
    declares New pre rs ->
    Include entry <> [] -> Exclude entry <> [] ->
    unmarshalRules New (pre ++ entry :: post) l = Err ErrRuleConflict.
Proof.
  intros l Hd Hi He. revert l.
  induction Hd as [|e tests p rs Hi' He' Ht Hd IH
                   |e tests p rs Hi' He' Ht Hd IH
                   |e p rs Hi' He' Hd IH]; intros l; simpl.
  - apply nonempty_length in Hi. apply nonempty_length in He.
    now rewrite Hi, He.
  - apply nonempty_length in Hi'. rewrite Hi', He'. simpl.
    rewrite Ht. apply IH.
  - apply nonempty_length in He'. rewrite Hi', He'. simpl.
    rewrite Ht. apply IH.
  - rewrite Hi', He'. simpl. apply IH.
Qed.

End RuleEngine.

(** The loop that compiles the patterns of an entry gives one test per
    pattern string, in order, and fails if one of them does not compile. *)
Lemma compileTests_compiled New patterns tests :
  compileTests New patterns = Ok tests <-> compiled New patterns tests.
Proof.
  unfold compiled. revert tests.
  induction patterns as [|pattern patterns IH]; intros tests; simpl.
  - split; intros H.
    + injection H as <-. constructor.
    + now inversion H.
  - split; intros H.
    + destruct (New pattern) as [test|] eqn:Hnew; [|discriminate].
      destruct (compileTests New patterns) as [rest|]; [|discriminate].
      injection H as <-. constructor; [exact Hnew|]. now apply IH.
    + inversion H as [|? test ? rest Hnew Hrest]; subst.
      rewrite Hnew. apply IH in Hrest. now rewrite Hrest.
Qed.

Lemma declares_ruleSet New p rs : declares New p rs -> ruleSet New p rs.
Proof.
  induction 1 as [|entry tests p rs Hi He Ht Hd IH
                  |entry tests p rs Hi He Ht Hd IH
                  |entry p rs Hi He Hd IH].
  - constructor.
  - apply ruleSet_include; try assumption. now apply compileTests_compiled.
  - apply ruleSet_exclude; try assumption. now apply compileTests_compiled.
  - now apply ruleSet_skip.
Qed.

Lemma compiled_functional New patterns tests tests' :
  compiled New patterns tests -> compiled New patterns tests' -> tests = tests'.
Proof.
  unfold compiled. intros H. revert tests'.
  induction H as [|pattern test patterns tests Hnew Hrest IH]; intros tests' H';
    inversion H' as [|? test' ? rest' Hnew' Hrest']; subst; [reflexivity|].
  rewrite Hnew in Hnew'. injection Hnew' as <-. f_equal. now apply IH.
Qed.

(** The entries of a config stand for one RuleSet. *)
Lemma ruleSet_functional New p rs rs' :
  ruleSet New p rs -> ruleSet New p rs' -> rs = rs'.
Proof.
  intros H. revert rs'.
  induction H as [|entry tests p rs Hi He Ht Hd IH
                  |entry tests p rs Hi He Ht Hd IH
                  |entry p rs Hi He Hd IH]; intros rs' H';
    inversion H' as [|? tests' ? rs1 Hi' He' Ht' Hd'
                     |? tests' ? rs1 Hi' He' Ht' Hd'
                     |? ? rs1 Hi' He' Hd']; subst;
    try reflexivity; try contradiction.
  - rewrite (compiled_functional _ _ _ _ Ht Ht'). f_equal. now apply IH.
  - rewrite (compiled_functional _ _ _ _ Ht Ht'). f_equal. now apply IH.
  - now apply IH.
Qed.

(** ** Relative paths *)

Lemma eqbElems_eq a b : eqbElems a b = true <-> a = b.
Proof.
  revert b. induction a as [|x a IH]; intros [|y b]; simpl;
    try (split; [discriminate|discriminate]); [now split|].
  rewrite andb_true_iff, String.eqb_eq, IH. split.
  - now intros [-> ->].
  - intros H. injection H as -> ->. now split.
Qed.

Lemma eqbElems_extended r segs :
  eqbElems (r ++ segs) r = match segs with [] => true | _ => false end.
Proof.
  induction r as [|x r IH]; simpl.
  - now destruct segs.
  - now rewrite String.eqb_refl, IH.
Qed.

Lemma stripCommon_extended r segs : stripCommon r (r ++ segs) = ([], segs).
Proof.
  induction r as [|x r IH]; simpl; [reflexivity|].
  now rewrite String.eqb_refl.
Qed.

(** The loop stops where the two paths part. *)
Lemma stripCommon_parts base :
  forall targ b t,
    stripCommon base targ = (b, t) ->
    exists common,
      base = common ++ b /\ targ = common ++ t
      /\ forall x b' t', b = x :: b' -> t <> x :: t'.
Proof.
  induction base as [|x base IH]; intros targ b t H.
  - simpl in H. injection H as <- <-. exists []. repeat split. discriminate.
  - destruct targ as [|y targ].
    + simpl in H. injection H as <- <-. exists []. repeat split. discriminate.
    + simpl in H. destruct (String.eqb y x) eqn:Hxy.
      * apply String.eqb_eq in Hxy. subst y.
        destruct (IH _ _ _ H) as (common & -> & -> & Hpart).
        exists (x :: common). repeat split. exact Hpart.
      * injection H as <- <-. exists []. repeat split.
        intros x' b' t' Hb Ht. injection Hb as <- <-. injection Ht as -> _.
        rewrite String.eqb_refl in Hxy. discriminate.
Qed.

Lemma stripCommon_app common b t :
  (forall x b' t', b = x :: b' -> t <> x :: t') ->
  stripCommon (common ++ b) (common ++ t) = (b, t).
Proof.
  intros Hpart. induction common as [|x common IH]; simpl.
  - destruct b as [|x b]; [reflexivity|].
    destruct t as [|y t]; [reflexivity|]. simpl.
    destruct (String.eqb y x) eqn:Hxy; [|reflexivity].
    apply String.eqb_eq in Hxy. subst y.
    now destruct (Hpart x b t eq_refl).
  - now rewrite String.eqb_refl.
Qed.

(** [Rel] gives back the names the walk has appended to the root. *)
Lemma Rel_entryPath root segs :
  Rel (ToSlash root) (ToSlash (entryPath root segs)) = Ok (relPath segs).
Proof.
  unfold Rel, ToSlash, entryPath, Join. simpl.
  rewrite eqbElems_extended, Bool.eqb_reflx. simpl.
  destruct segs as [|s segs]; [reflexivity|].
  now rewrite stripCommon_extended.
Qed.

(** [Rel] fails on the unrelatable pairs. *)
Lemma Rel_unrelatable base targ :
  unrelatable base targ -> exists e, Rel base targ = Err e.
Proof.
  intros [Habs|common rest target Habs Hbase Htarg Hpart]; unfold Rel.
  - destruct (isAbs base), (isAbs targ); simpl;
      try (now destruct Habs); eexists; reflexivity.
  - destruct (eqbElems (elems targ) (elems base)) eqn:Heq.
    { apply eqbElems_eq in Heq. rewrite Hbase, Htarg in Heq.
      apply app_inv_head in Heq. now destruct (Hpart rest). }
    rewrite andb_false_r, Habs, Bool.eqb_reflx. simpl.
    rewrite Hbase, Htarg, stripCommon_app.
    + simpl. eexists; reflexivity.
    + intros x b' t' Hb Ht. injection Hb as <- <-. now destruct (Hpart t').
Qed.

(** [Rel] fails on these pairs only. *)
Lemma Rel_error_unrelatable base targ e :
  Rel base targ = Err e -> unrelatable base targ.
Proof.
  unfold Rel. intros H.
  destruct (Bool.eqb (isAbs targ) (isAbs base)
            && eqbElems (elems targ) (elems base)); [discriminate|].
  destruct (Bool.eqb (isAbs base) (isAbs targ)) eqn:Habs; simpl in H.
  - apply Bool.eqb_prop in Habs.
    destruct (stripCommon (elems base) (elems targ)) as [b t] eqn:Hstrip.
    destruct (stripCommon_parts _ _ _ _ Hstrip) as (common & Hb & Ht & Hpart).
    destruct b as [|x b]; [discriminate|]. simpl in H.
    destruct (String.eqb x "..") eqn:Hx; [|discriminate].
    apply String.eqb_eq in Hx. subst x.
    apply (unrelatable_dotdot base targ common b t); try assumption.
    intros more. now apply (Hpart ".." b more).
  - apply unrelatable_rooted. intros Heq. rewrite Heq in Habs.
    now rewrite Bool.eqb_reflx in Habs.
Qed.

(** C1.  For a rule list decoded by [UnmarshalJSON] and a path whose form
    relative to the root is [relPath], [shouldExamine] is the left fold of
    the rules written in the entries over the decision, from [true]: a
    matching include sets it, a matching exclude clears it, any other rule
    passes it on, and the value after the last rule is returned.  The
    rules are those of the pattern strings of the entries, each compiled
    by [match.New], in the order of the entries.  So it is for every entry
    [segs] below the root.  With no rule the result is [true]. *)
Theorem shouldExamine_is_left_fold (w : World) (body : string)
    (rules : searchRules) (H : UnmarshalJSON w body = Ok rules) :
  (exists p rs,
      jsonRules w body = Ok p
      /\ ruleSet (matchNew w) p rs
      /\ (forall licenses root absPath relPath,
            Rel (ToSlash root) (ToSlash absPath) = Ok relPath ->
            shouldExamine (mkConfig rules licenses) root absPath
            = evaluate rs (text relPath))
      /\ (forall licenses root segs,
            shouldExamine (mkConfig rules licenses) root (entryPath root segs)
            = evaluate rs (text (relPath segs))))
  /\ (forall licenses root absPath relPath,
         Rel (ToSlash root) (ToSlash absPath) = Ok relPath ->
         shouldExamine (mkConfig [] licenses) root absPath = true)
  /\ (forall licenses root segs,
         shouldExamine (mkConfig [] licenses) root (entryPath root segs)
         = true).
Proof.
  split; [|split].
  - unfold UnmarshalJSON in H.
    destruct (jsonRules w body) as [p|] eqn:Hp; [|discriminate].
    destruct (unmarshalRules_declares _ _ _ _ H) as (rs & Hd & ->).
    exists p, rs.
    split; [reflexivity|]. split; [now apply declares_ruleSet|].
    assert (Hfold : forall licenses root absPath relPath,
               Rel (ToSlash root) (ToSlash absPath) = Ok relPath ->
               shouldExamine (mkConfig ([] ++ map closureOf rs) licenses)
                 root absPath
               = evaluate rs (text relPath)).
    { intros licenses root absPath relPath Hrel.
      unfold shouldExamine. rewrite Hrel. simpl. apply fold_closures. }
    split; [exact Hfold|].
    intros licenses root segs. apply Hfold, Rel_entryPath.
  - intros licenses root absPath relPath Hrel.
    unfold shouldExamine. now rewrite Hrel.
  - intros licenses root segs.
    unfold shouldExamine. now rewrite Rel_entryPath.
Qed.

(** C9.  When [filepath.Rel] fails for the candidate path, [shouldExamine]
    returns [false] whatever the rules are, the empty rule list included.
    [Rel] fails exactly when one path only is rooted or the base steps back
    with [..] where the target does not, as for the base [..] and the
    target [.]. *)
Theorem shouldExamine_rel_error (c : Config) (root absPath : Path) :
  ((exists e, Rel (ToSlash root) (ToSlash absPath) = Err e)
   <-> unrelatable root absPath)
  /\ (forall e,
         Rel (ToSlash root) (ToSlash absPath) = Err e ->
         shouldExamine c root absPath = false
         /\ shouldExamine (mkConfig [] (Licenses c)) root absPath = false)
  /\ (unrelatable root absPath ->
      shouldExamine c root absPath = false
      /\ shouldExamine (mkConfig [] (Licenses c)) root absPath = false).
Proof.
  assert (Hfalse : forall e,
             Rel (ToSlash root) (ToSlash absPath) = Err e ->
             shouldExamine c root absPath = false
             /\ shouldExamine (mkConfig [] (Licenses c)) root absPath = false).
  { intros e H. unfold shouldExamine. now rewrite H. }
  split; [|split].
  - split.
    + intros [e H]. now apply (Rel_error_unrelatable _ _ e).
    + apply Rel_unrelatable.
  - exact Hfalse.
  - intros H. destruct (Rel_unrelatable _ _ H) as [e He].
    now apply (Hfalse e).
Qed.

(** ** The scan of one file *)

Lemma fst_bind {A B} (m : M A) (k : A -> M B) :
  fst (bind m k) = fst (k (fst m)).
Proof.
  unfold bind. destruct m as [a t1]. simpl. now destruct (k a).
Qed.

Lemma snd_bind {A B} (m : M A) (k : A -> M B) :
  snd (bind m k) = snd m ++ snd (k (fst m)).
Proof.
  unfold bind. destruct m as [a t1]. simpl. now destruct (k a).
Qed.

Lemma ReadFile_fst (w : World) (path : Path) :
  fst (ReadFile w path) = fsRead w path.
Proof. reflexivity. Qed.

Lemma ReadFile_snd (w : World) (path : Path) :
  snd (ReadFile w path) = [EvReadFile path].
Proof. reflexivity. Qed.

Lemma allowsLicense_existsb (c : Config) (name : string) :
  allowsLicense c name = existsb (String.eqb name) (Licenses c).
Proof.
  unfold allowsLicense.
  induction (Licenses c) as [|l ls IH]; simpl; [reflexivity|].
  rewrite (String.eqb_sym name l).
  destruct (String.eqb l name); simpl; [reflexivity|exact IH].
Qed.

Lemma checkMatches_find (cfg : Config) (path : Path)
    (ms : list licensecheck.Match) :
  checkMatches cfg path ms
  = match find (fun m => negb (existsb (String.eqb (licensecheck.ID m))
                                 (Licenses cfg))) ms with
    | Some m => Some (ErrUnsupported (text path) (licensecheck.ID m))
    | None => None
    end.
Proof.
  induction ms as [|m ms IH]; simpl; [reflexivity|].
  rewrite allowsLicense_existsb.
  destruct (existsb _ (Licenses cfg)); simpl; [exact IH|reflexivity].
Qed.

(** [examine] computes the classification of section 4.4. *)
Lemma examine_classify (w : World) (root path : Path) (cfg : Config) :
  fst (examine w root path cfg)
  = report path (classify (Licenses cfg) (fsRead w (Join root path)) (Scan w)).
Proof.
  unfold examine. rewrite fst_bind, ReadFile_fst. unfold classify.
  destruct (fsRead w (Join root path)) as [body|cause]; simpl; [|reflexivity].
  destruct (Scan w body) as [|m ms] eqn:Hs; simpl; [reflexivity|].
  pose proof (checkMatches_find cfg path (m :: ms)) as Hc.
  simpl in Hc. rewrite Hc.
  destruct (negb (existsb (String.eqb (licensecheck.ID m)) (Licenses cfg)));
    [reflexivity|].
  now destruct (find _ ms).
Qed.

(** Each goroutine reads exactly its own file. *)
Lemma examine_trace (w : World) (root path : Path) (cfg : Config) :
  snd (examine w root path cfg) = [EvReadFile (Join root path)].
Proof.
  unfold examine. rewrite snd_bind, ReadFile_snd, ReadFile_fst.
  destruct (fsRead w (Join root path)) as [body|]; simpl; [|reflexivity].
  now destruct (List.length (Scan w body) =? 0)%nat.
Qed.

(** ** The fan-out over goroutines *)

Section Goroutines.

Variables (w : World) (root : Path) (cfg : Config) (files : list Path).

Lemma goroutine_length i errs :
  List.length (fst (goroutine w root cfg files i errs)) = List.length errs.
Proof.
  unfold goroutine. destruct (files !! i); [|reflexivity].
  rewrite fst_bind. simpl. apply length_insert.
Qed.

Lemma runGoroutines_length sched :
  forall errs,
    List.length (fst (runGoroutines w root cfg files sched errs))
    = List.length errs.
Proof.
  induction sched as [|i sched IH]; intros errs; simpl; [reflexivity|].
  rewrite fst_bind, IH. apply goroutine_length.
Qed.

(** A slot whose goroutine is not scheduled keeps its value. *)
Lemma runGoroutines_untouched sched :
  forall errs i,
    ~ In i sched ->
    fst (runGoroutines w root cfg files sched errs) !! i = errs !! i.
Proof.
  induction sched as [|j sched IH]; intros errs i Hi; simpl; [reflexivity|].
  rewrite fst_bind, IH by (intros Hin; apply Hi; now right).
  unfold goroutine. destruct (files !! j); [|reflexivity].
  rewrite fst_bind. simpl.
  apply list_lookup_insert_ne. intros ->. apply Hi. now left.
Qed.

(** A slot whose goroutine ran holds the outcome of its file, whenever the
    goroutine ran and whatever ran after it. *)
Lemma runGoroutines_slot sched :
  forall errs i file,
    In i sched -> files !! i = Some file -> (i < List.length errs)%nat ->
    fst (runGoroutines w root cfg files sched errs) !! i
    = Some (fst (examine w root file cfg)).
Proof.
  induction sched as [|j sched IH]; intros errs i file Hin Hf Hlen;
    [inversion Hin|].
  simpl. rewrite fst_bind.
  destruct (in_dec Nat.eq_dec i sched) as [Hlater|Hlast].
  - apply IH; [assumption|assumption|]. now rewrite goroutine_length.
  - destruct Hin as [->|Hin]; [|contradiction].
    rewrite runGoroutines_untouched by assumption.
    unfold goroutine. rewrite Hf, fst_bind. simpl.
    now apply list_lookup_insert_eq.
Qed.

Lemma scanSequential_map fs :
  scanSequential w root cfg fs = map (fun file => fst (examine w root file cfg)) fs.
Proof.
  induction fs as [|f fs IH]; simpl; [reflexivity|]. now rewrite IH.
Qed.

(** Once every goroutine has run, in any order, the slots are those of the
    sequential scan. *)
Lemma runGoroutines_sequential sched :
  Permutation sched (seq 0 (List.length files)) ->
  fst (runGoroutines w root cfg files sched
         (replicate (List.length files) None))
  = scanSequential w root cfg files.
Proof.
  intros Hperm. apply list_eq. intros i.
  rewrite scanSequential_map.
  change (map ?f files) with (f <$> files).
  rewrite list_lookup_fmap.
  destruct (files !! i) as [file|] eqn:Hf; simpl.
  - pose proof (lookup_lt_Some _ _ _ Hf) as Hlt.
    apply runGoroutines_slot; [|assumption|].
    + apply (Permutation_in i (Permutation_sym Hperm)).
      apply in_seq. lia.
    + now rewrite length_replicate.
  - apply lookup_ge_None. rewrite runGoroutines_length, length_replicate.
    now apply lookup_ge_None in Hf.
Qed.

(** The reads of the goroutines appear in the order they ran. *)
Lemma runGoroutines_trace sched :
  forall errs,
    Forall (fun i => (i < List.length files)%nat) sched ->
    reads (snd (runGoroutines w root cfg files sched errs))
    = flat_map (fun i => match files !! i with
                         | Some file => [Join root file]
                         | None => []
                         end) sched.
Proof.
  induction sched as [|i sched IH]; intros errs Hall; simpl; [reflexivity|].
  inversion Hall as [|? ? Hi Hrest]; subst.
  rewrite snd_bind. unfold reads in *. rewrite flat_map_app, IH by assumption.
  f_equal. unfold goroutine.
  destruct (files !! i) as [file|]; [|reflexivity].
  rewrite snd_bind, examine_trace. reflexivity.
Qed.

End Goroutines.

Lemma removeNilErrs_failures (errs : list (option error)) :
  removeNilErrs errs = failures errs.
Proof.
  unfold removeNilErrs.
  enough (forall out,
             fold_left (fun out err => match err with
                                       | Some e => out ++ [e]
                                       | None => out
                                       end) errs out
             = out ++ failures errs) as H by apply (H []).
  induction errs as [|[e|] errs IH]; intros out; simpl.
  - now rewrite app_nil_r.
  - rewrite IH, <- app_assoc. reflexivity.
  - apply IH.
Qed.

Lemma StronglySorted_map_S (l : list nat) :
  StronglySorted lt l -> StronglySorted lt (map S l).
Proof.
  induction 1 as [|a l Hs IH Ha]; simpl; constructor; [assumption|].
  rewrite Forall_map. rewrite List.Forall_forall in Ha |- *.
  intros b Hb. specialize (Ha b Hb). simpl. lia.
Qed.

(** The failures are the slots that hold an error, by increasing index. *)
Lemma failures_by_index (results : list (option error)) :
  exists idx,
    StronglySorted lt idx
    /\ (forall i, In i idx <-> exists e, results !! i = Some (Some e))
    /\ Forall2 (fun i e => results !! i = Some (Some e)) idx (failures results).
Proof.
  induction results as [|r results (idx & Hsorted & Hin & Hall)].
  - exists []. repeat split; try constructor.
    + intros [].
    + intros [e He]. discriminate.
  - assert (Hlater : Forall2 (fun i e => (r :: results) !! i = Some (Some e))
                       (map S idx) (failures results)).
    { change (map S idx) with (S <$> idx). apply Forall2_fmap_l. exact Hall. }
    assert (Hshift : forall j, In (S j) (map S idx) <-> In j idx).
    { intros j. rewrite in_map_iff. split.
      - intros (k & Hk & Hj). now injection Hk as ->.
      - intros Hj. now exists j. }
    destruct r as [e0|].
    + exists (0 :: map S idx). simpl. repeat split.
      * constructor; [now apply StronglySorted_map_S|].
        rewrite Forall_map. apply Forall_forall. intros; simpl; lia.
      * intros [<-|Hi]; [now exists e0|].
        destruct i as [|j]; [now exists e0|].
        apply Hshift, Hin in Hi. exact Hi.
      * intros [e He]. destruct i as [|j]; [now left|right].
        apply Hshift, Hin. now exists e.
      * constructor; [reflexivity|exact Hlater].
    + exists (map S idx). simpl. repeat split.
      * now apply StronglySorted_map_S.
      * intros Hi. destruct i as [|j].
        { apply in_map_iff in Hi. destruct Hi as (k & Hk & _). discriminate. }
        apply Hshift, Hin in Hi. exact Hi.
      * intros [e He]. destruct i as [|j]; [discriminate|].
        apply Hshift, Hin. now exists e.
      * exact Hlater.
Qed.

(** ** The walk *)

Lemma Node_induction (P : Node -> Prop)
    (HFile : P File)
    (HDir : forall es, Forall (fun e => P (snd e)) es -> P (Dir es)) :
  forall n, P n.
Proof.
  fix IH 1. intros [|es]; [exact HFile|]. apply HDir.
  induction es as [|[name child] es IHes]; constructor;
    [apply IH|exact IHes].
Qed.

Lemma walk_Dir {St} (walkFn : WalkFunc St) path es st :
  walk walkFn path (Dir es) st
  = let '(st1, err1) := walkFn path (mkInfo true) st in
    match err1 with
    | Some e => (st1, Some e)
    | None => walkEntries walkFn path es st1
    end.
Proof.
  simpl. destruct (walkFn path (mkInfo true) st) as [st1 [e|]];
    [reflexivity|].
  revert st1. induction es as [|[name child] es IH]; intros st1;
    [reflexivity|].
  simpl. destruct (walk walkFn _ child st1) as [st' [e|]].
  - destruct (negb (nodeIsDir child) || negb (isSkipDir e));
      [reflexivity|apply IH].
  - apply IH.
Qed.

Lemma nodeFiles_Dir prefix es :
  nodeFiles prefix (Dir es) = entriesFiles prefix es.
Proof.
  simpl. induction es as [|[name child] es IH]; [reflexivity|].
  simpl. now rewrite IH.
Qed.

Lemma entryPath_nil root : entryPath root [] = root.
Proof.
  unfold entryPath, Join. simpl. rewrite app_nil_r. now destruct root.
Qed.

Lemma entryPath_snoc root segs name :
  Join (entryPath root segs) (relPath [name]) = entryPath root (segs ++ [name]).
Proof.
  unfold entryPath, Join. simpl. now rewrite app_assoc.
Qed.

Lemma hasSeparator_app a b :
  hasSeparator (a ++ String "/" b) = true.
Proof.
  induction a as [|c a IH]; simpl; [reflexivity|].
  rewrite IH. apply orb_true_r.
Qed.

Lemma text_nested a b l : hasSeparator (text (relPath (a :: b :: l))) = true.
Proof.
  unfold text. simpl. apply hasSeparator_app.
Qed.

(** Below the first level no entry has one of the two reserved names as
    its relative path. *)
Lemma text_deep prefix name :
  prefix <> [] ->
  String.eqb (text (relPath (prefix ++ [name]))) ".git" = false
  /\ String.eqb (text (relPath (prefix ++ [name]))) ConfigFileName = false.
Proof.
  intros Hne. destruct prefix as [|a [|b l]]; [contradiction| |];
    simpl app; split; apply String.eqb_neq; intros Heq;
    pose proof (text_nested a) as Hs;
    [ specialize (Hs name []) | specialize (Hs name [])
    | specialize (Hs b (l ++ [name])) | specialize (Hs b (l ++ [name])) ];
    rewrite Heq in Hs; discriminate.
Qed.

Section Walker.

Variables (root : Path) (cfg : Config).

(** On an entry with no reserved name the callback keeps the walk going and
    records the entry when it is selected and not a directory. *)
Lemma gatherFn_unreserved segs info files :
  unreserved segs ->
  gatherFn root cfg (entryPath root segs) info files
  = (if selects cfg root segs && negb (IsDir info)
     then files ++ [relPath segs] else files, None).
Proof.
  intros [Hgit Hcfg]. unfold gatherFn.
  pose proof (Rel_entryPath root segs) as Hrel. unfold ToSlash in Hrel.
  rewrite Hrel, Hgit, Hcfg. unfold selects.
  destruct (shouldExamine cfg root (entryPath root segs)); simpl;
    [|reflexivity].
  now destruct (IsDir info).
Qed.

Lemma filter_selects_app (l1 l2 : list (list string)) :
  map relPath (List.filter (selects cfg root) (l1 ++ l2))
  = map relPath (List.filter (selects cfg root) l1)
    ++ map relPath (List.filter (selects cfg root) l2).
Proof.
  now rewrite List.filter_app, map_app.
Qed.

(** The loop over a directory below the first level, given the statement
    for each of its entries. *)
Lemma walkEntries_below prefix es :
  prefix <> [] ->
  Forall (fun e =>
            forall prefix files,
              prefix <> [] -> unreserved prefix ->
              walk (gatherFn root cfg) (entryPath root prefix) (snd e) files
              = (files ++ map relPath
                            (List.filter (selects cfg root)
                               (nodeFiles prefix (snd e))), None)) es ->
  forall files,
    walkEntries (gatherFn root cfg) (entryPath root prefix) es files
    = (files ++ map relPath
                  (List.filter (selects cfg root) (entriesFiles prefix es)),
       None).
Proof.
  intros Hne Hall.
  induction Hall as [|[name child] es Hchild _ IH]; intros files; simpl.
  - now rewrite app_nil_r.
  - rewrite entryPath_snoc. simpl in Hchild.
    rewrite Hchild; [|now destruct prefix|now apply text_deep].
    rewrite IH, filter_selects_app, app_assoc. reflexivity.
Qed.

(** The walk of a subtree whose root entry has no reserved name visits
    every entry and keeps the selected non-directories, in order. *)
Lemma walk_below n :
  forall prefix files,
    prefix <> [] -> unreserved prefix ->
    walk (gatherFn root cfg) (entryPath root prefix) n files
    = (files ++ map relPath
                  (List.filter (selects cfg root) (nodeFiles prefix n)), None).
Proof.
  induction n as [|es IH] using Node_induction; intros prefix files Hne Hun.
  - simpl. rewrite gatherFn_unreserved by assumption. simpl.
    rewrite andb_true_r. now destruct (selects cfg root prefix);
      simpl; rewrite ?app_nil_r.
  - rewrite nodeFiles_Dir, walk_Dir, gatherFn_unreserved by assumption.
    cbn [IsDir negb]. rewrite andb_false_r.
    now apply walkEntries_below.
Qed.

Lemma walkEntries_below_all prefix es files :
  prefix <> [] ->
  walkEntries (gatherFn root cfg) (entryPath root prefix) es files
  = (files ++ map relPath
                (List.filter (selects cfg root) (entriesFiles prefix es)),
     None).
Proof.
  intros Hne. apply walkEntries_below; [assumption|].
  apply List.Forall_forall. intros e _. apply walk_below.
Qed.

End Walker.

Section RootWalk.

Variables (root : Path) (cfg : Config).

Lemma unreserved_root : unreserved [].
Proof. split; reflexivity. Qed.

Lemma unreserved_name name :
  String.eqb name ".git" = false ->
  String.eqb name ConfigFileName = false ->
  unreserved [name].
Proof. intros Hgit Hcfg. split; assumption. Qed.

Lemma gatherFn_git info files :
  gatherFn root cfg (entryPath root [".git"]) info files
  = (files, Some SkipDir).
Proof.
  unfold gatherFn.
  pose proof (Rel_entryPath root [".git"]) as Hrel. unfold ToSlash in Hrel.
  now rewrite Hrel.
Qed.

Lemma gatherFn_config info files :
  gatherFn root cfg (entryPath root [ConfigFileName]) info files
  = (files, None).
Proof.
  unfold gatherFn.
  pose proof (Rel_entryPath root [ConfigFileName]) as Hrel.
  unfold ToSlash in Hrel. now rewrite Hrel.
Qed.

(** The loop over the entries of the root: it stops at a non-directory
    [.git], steps over a directory [.git] and over the configuration file,
    and walks everything else. *)
Lemma walkEntries_root es :
  forall files,
    exists err,
      walkEntries (gatherFn root cfg) root es files
      = (files ++ map relPath
                    (List.filter (selects cfg root) (rootCandidates es)), err)
      /\ (err = None \/ err = Some SkipDir).
Proof.
  induction es as [|[name child] es IH]; intros files.
  - exists None. simpl. rewrite app_nil_r. now split; [|left].
  - simpl walkEntries. simpl rootCandidates.
    change (Join root (relPath [name])) with (entryPath root [name]).
    destruct (String.eqb name ".git") eqn:Hgit.
    + apply String.eqb_eq in Hgit. subst name.
      destruct child as [|sub].
      * simpl. rewrite gatherFn_git. simpl.
        exists (Some SkipDir). rewrite app_nil_r. now split; [|right].
      * rewrite walk_Dir, gatherFn_git. simpl. apply IH.
    + destruct (String.eqb name ConfigFileName) eqn:Hcfg.
      * apply String.eqb_eq in Hcfg. subst name.
        destruct child as [|sub].
        -- simpl walk. rewrite gatherFn_config. apply IH.
        -- rewrite walk_Dir, gatherFn_config.
           rewrite walkEntries_below_all by discriminate.
           destruct (IH (files ++ map relPath
                           (List.filter (selects cfg root)
                              (entriesFiles [ConfigFileName] sub))))
             as (err & Heq & Herr).
           exists err. split; [|exact Herr].
           rewrite Heq, filter_selects_app, app_assoc. reflexivity.
      * rewrite walk_below;
          [|discriminate|now apply unreserved_name].
        destruct (IH (files ++ map relPath
                        (List.filter (selects cfg root)
                           (nodeFiles [name] child))))
          as (err & Heq & Herr).
        exists err. split; [|exact Herr].
        rewrite Heq, filter_selects_app, app_assoc. reflexivity.
Qed.

(** [Walk] with the callback of [gatherFiles] returns the selected
    candidates and never an error. *)
Lemma Walk_gatherFn tree :
  Walk tree root (gatherFn root cfg) []
  = (map relPath (List.filter (selects cfg root) (candidates tree)), None).
Proof.
  unfold Walk. destruct tree as [|es].
  - simpl walk. rewrite <- (entryPath_nil root) at 2.
    rewrite gatherFn_unreserved by apply unreserved_root. simpl.
    rewrite andb_true_r. now destruct (selects cfg root []).
  - rewrite walk_Dir. rewrite <- (entryPath_nil root) at 2.
    rewrite gatherFn_unreserved by apply unreserved_root.
    cbn [IsDir negb]. rewrite andb_false_r.
    destruct (walkEntries_root es []) as (err & Heq & [->| ->]);
      rewrite Heq; reflexivity.
Qed.

End RootWalk.

(** [gatherFiles] always returns a list: the selected candidates, in the
    order of the walk. *)
Lemma gatherFiles_candidates (w : World) (root : Path) (cfg : Config) :
  gatherFiles w root cfg
  = (Ok (map relPath
           (List.filter (selects cfg root) (candidates (Tree w root)))),
     [EvWalk root]).
Proof.
  unfold gatherFiles. unfold bind at 1. simpl.
  now rewrite Walk_gatherFn.
Qed.

(** ** What the candidates are *)

Lemma fileAt_cons e es segs :
  fileAt es segs = true -> fileAt (e :: es) segs = true.
Proof.
  destruct segs as [|name [|r rs]]; simpl; intros H;
    [discriminate| |]; rewrite H; apply orb_true_r.
Qed.

Lemma fileAt_here_File name es : fileAt ((name, File) :: es) [name] = true.
Proof. simpl. now rewrite String.eqb_refl. Qed.

Lemma fileAt_here_Dir name sub es rest :
  fileAt sub rest = true -> fileAt ((name, Dir sub) :: es) (name :: rest) = true.
Proof.
  destruct rest as [|r rs]; [discriminate|]. intros H.
  simpl. simpl in H. now rewrite String.eqb_refl, H.
Qed.

(** Every listed entry is a non-directory of the tree, found under the
    prefix it was listed with. *)
Lemma nodeFiles_fileAt n :
  forall prefix segs,
    In segs (nodeFiles prefix n) ->
    match n with
    | File => segs = prefix
    | Dir es => exists rest, segs = prefix ++ rest /\ fileAt es rest = true
    end.
Proof.
  induction n as [|es IH] using Node_induction; intros prefix segs Hin.
  - simpl in Hin. destruct Hin as [<-|[]]. reflexivity.
  - rewrite nodeFiles_Dir in Hin.
    induction IH as [|[name child] es Hchild _ IHes]; [destruct Hin|].
    simpl in Hin. apply in_app_or in Hin. destruct Hin as [Hin|Hin].
    + simpl in Hchild. specialize (Hchild _ _ Hin).
      destruct child as [|sub].
      * subst segs. exists [name]. split; [reflexivity|].
        apply fileAt_here_File.
      * destruct Hchild as (rest & -> & Hrest).
        exists (name :: rest). split; [now rewrite <- app_assoc|].
        now apply fileAt_here_Dir.
    + destruct (IHes Hin) as (rest & -> & Hrest).
      exists rest. split; [reflexivity|now apply fileAt_cons].
Qed.

Lemma entriesFiles_fileAt prefix es segs :
  In segs (entriesFiles prefix es) ->
  exists rest, segs = prefix ++ rest /\ fileAt es rest = true.
Proof.
  rewrite <- nodeFiles_Dir. apply (nodeFiles_fileAt (Dir es)).
Qed.

Lemma nodeFiles_prefix prefix n segs :
  In segs (nodeFiles prefix n) -> exists rest, segs = prefix ++ rest.
Proof.
  intros Hin. apply nodeFiles_fileAt in Hin. destruct n.
  - exists []. now rewrite app_nil_r.
  - destruct Hin as (rest & -> & _). now exists rest.
Qed.

Lemma In_entriesFiles prefix es name child segs :
  In (name, child) es ->
  In segs (nodeFiles (prefix ++ [name]) child) ->
  In segs (entriesFiles prefix es).
Proof.
  induction es as [|[n c] es IH]; intros Hin Hsegs; [destruct Hin|].
  simpl. apply in_or_app. destruct Hin as [Heq|Hin].
  - injection Heq as -> ->. now left.
  - right. now apply IH.
Qed.

(** Every non-directory of the tree is listed. *)
Lemma fileAt_entriesFiles rest :
  forall es prefix,
    fileAt es rest = true -> In (prefix ++ rest) (entriesFiles prefix es).
Proof.
  induction rest as [|name rest IH]; intros es prefix H; [discriminate|].
  destruct rest as [|r rs].
  - simpl in H. apply existsb_exists in H.
    destruct H as ([n c] & Hin & Hn). simpl in Hn.
    apply andb_true_iff in Hn. destruct Hn as [Hn Hc].
    apply String.eqb_eq in Hn. subst n.
    destruct c; [|discriminate].
    apply (In_entriesFiles _ _ name File); [assumption|]. now left.
  - change (fileAt es (name :: r :: rs))
      with (existsb (fun e => String.eqb (fst e) name
                              && match snd e with
                                 | File => false
                                 | Dir sub => fileAt sub (r :: rs)
                                 end) es) in H.
    apply existsb_exists in H.
    destruct H as ([n c] & Hin & Hn). simpl in Hn.
    apply andb_true_iff in Hn. destruct Hn as [Hn Hc].
    apply String.eqb_eq in Hn. subst n.
    destruct c as [|sub]; [discriminate|].
    apply (In_entriesFiles _ _ name (Dir sub)); [assumption|].
    rewrite nodeFiles_Dir.
    replace (prefix ++ name :: r :: rs) with ((prefix ++ [name]) ++ r :: rs)
      by now rewrite <- app_assoc.
    now apply IH.
Qed.

Lemma rootCandidates_entries es segs :
  In segs (rootCandidates es) -> In segs (entriesFiles [] es).
Proof.
  induction es as [|[name child] es IH]; intros Hin; [destruct Hin|].
  simpl in Hin. simpl. apply in_or_app.
  destruct (String.eqb name ".git").
  - destruct (nodeIsDir child); [right; now apply IH|destruct Hin].
  - destruct (String.eqb name ConfigFileName).
    + destruct child as [|sub]; [right; now apply IH|].
      apply in_app_or in Hin. destruct Hin as [Hin|Hin];
        [left; now rewrite nodeFiles_Dir|right; now apply IH].
    + apply in_app_or in Hin. destruct Hin as [Hin|Hin];
        [now left|right; now apply IH].
Qed.

(** No candidate is at or under [.git], none is the configuration file. *)
Lemma rootCandidates_unreserved es segs :
  In segs (rootCandidates es) -> ~ underGit segs /\ segs <> [ConfigFileName].
Proof.
  induction es as [|[name child] es IH]; intros Hin; [destruct Hin|].
  simpl in Hin.
  destruct (String.eqb name ".git") eqn:Hgit.
  - destruct (nodeIsDir child); [now apply IH|destruct Hin].
  - apply String.eqb_neq in Hgit.
    destruct (String.eqb name ConfigFileName) eqn:Hcfg.
    + apply String.eqb_eq in Hcfg. subst name.
      destruct child as [|sub]; [now apply IH|].
      apply in_app_or in Hin. destruct Hin as [Hin|Hin]; [|now apply IH].
      apply entriesFiles_fileAt in Hin. destruct Hin as (rest & -> & Hrest).
      split.
      * intros [r Hr]. discriminate.
      * destruct rest; [discriminate|]. discriminate.
    + apply String.eqb_neq in Hcfg.
      apply in_app_or in Hin. destruct Hin as [Hin|Hin]; [|now apply IH].
      apply nodeFiles_prefix in Hin. destruct Hin as (rest & ->).
      split.
      * intros [r Hr]. simpl in Hr. congruence.
      * simpl. congruence.
Qed.

(** When the root lists no non-directory [.git], every non-directory
    outside [.git] other than the configuration file is a candidate. *)
Lemma rootCandidates_complete es segs :
  fileAt es [".git"] = false ->
  In segs (entriesFiles [] es) ->
  ~ underGit segs -> segs <> [ConfigFileName] ->
  In segs (rootCandidates es).
Proof.
  induction es as [|[name child] es IH]; intros Hnogit Hin Hgit Hcfg;
    [destruct Hin|].
  simpl in Hnogit. apply orb_false_iff in Hnogit.
  destruct Hnogit as [Hhere Hnogit].
  simpl in Hin. apply in_app_or in Hin. simpl.
  destruct (String.eqb name ".git") eqn:Hname.
  - simpl in Hhere. apply negb_false_iff in Hhere. rewrite Hhere.
    destruct Hin as [Hin|Hin]; [|now apply IH].
    apply String.eqb_eq in Hname. subst name.
    apply nodeFiles_prefix in Hin. destruct Hin as (rest & ->).
    exfalso. apply Hgit. now exists rest.
  - destruct (String.eqb name ConfigFileName) eqn:Hcfgname.
    + apply String.eqb_eq in Hcfgname. subst name.
      destruct child as [|sub].
      * destruct Hin as [[<-|[]]|Hin]; [contradiction|now apply IH].
      * apply in_or_app. destruct Hin as [Hin|Hin];
          [left; now rewrite <- nodeFiles_Dir|right; now apply IH].
    + apply in_or_app. destruct Hin as [Hin|Hin];
        [now left|right; now apply IH].
Qed.

(** ** The paths the walk calls its callback on *)

Lemma extends_refl path : extends path path.
Proof. exists []. now rewrite entryPath_nil. Qed.

Lemma extends_child path name p :
  extends (Join path (relPath [name])) p -> extends path p.
Proof.
  intros [ext ->]. exists (name :: ext).
  unfold entryPath, Join. simpl. now rewrite <- app_assoc.
Qed.

Section Recording.

Context {St : Type} (walkFn : WalkFunc St).

(** Recording changes neither the state nor the outcome of the walk. *)
Lemma walk_recording_same n :
  forall path st log,
    (fst (fst (walk (recording walkFn) path n (st, log))),
     snd (walk (recording walkFn) path n (st, log)))
    = walk walkFn path n st.
Proof.
  induction n as [|es IH] using Node_induction; intros path st log.
  - simpl. unfold recording. simpl.
    now destruct (walkFn path (mkInfo false) st).
  - rewrite !walk_Dir. unfold recording at 1 3. simpl.
    destruct (walkFn path (mkInfo true) st) as [st1 [e|]]; [reflexivity|].
    generalize (log ++ [path]). revert st1.
    induction IH as [|[name child] es Hchild _ IHes]; intros st1 log1;
      [reflexivity|].
    simpl. simpl in Hchild.
    specialize (Hchild (Join path (relPath [name])) st1 log1).
    destruct (walk (recording walkFn) _ child (st1, log1))
      as [[st2 log2] err2].
    simpl in Hchild. rewrite <- Hchild.
    destruct err2 as [e|]; [|apply IHes].
    destruct (negb (nodeIsDir child) || negb (isSkipDir e));
      [reflexivity|apply IHes].
Qed.

(** Everything recorded during the walk of a node is the path of the node
    or lies below it. *)
Lemma walk_recording_log n :
  forall path st log,
    exists new,
      snd (fst (walk (recording walkFn) path n (st, log))) = log ++ new
      /\ Forall (extends path) new.
Proof.
  induction n as [|es IH] using Node_induction; intros path st log.
  - simpl. unfold recording. simpl.
    destruct (walkFn path (mkInfo false) st). simpl.
    exists [path]. split; [reflexivity|].
    constructor; [apply extends_refl|constructor].
  - rewrite walk_Dir. unfold recording at 1. simpl.
    destruct (walkFn path (mkInfo true) st) as [st1 [e|]].
    + simpl. exists [path]. split; [reflexivity|].
      constructor; [apply extends_refl|constructor].
    + enough (forall st1 log1,
                 exists new,
                   snd (fst (walkEntries (recording walkFn) path es
                               (st1, log1))) = log1 ++ new
                   /\ Forall (extends path) new) as Hloop.
      { destruct (Hloop st1 (log ++ [path])) as (new & Heq & Hnew).
        exists (path :: new). split.
        - rewrite Heq, <- app_assoc. reflexivity.
        - constructor; [apply extends_refl|exact Hnew]. }
      clear st st1 log.
      induction IH as [|[name child] es Hchild _ IHes]; intros st1 log1.
      * exists []. simpl. rewrite app_nil_r. split; constructor.
      * simpl. simpl in Hchild.
        destruct (Hchild (Join path (relPath [name])) st1 log1)
          as (new1 & Heq1 & Hnew1).
        assert (Hnew1' : Forall (extends path) new1).
        { eapply List.Forall_impl; [|exact Hnew1].
          intros p. apply extends_child. }
        destruct (walk (recording walkFn) _ child (st1, log1))
          as [[st2 log2] err2].
        simpl in Heq1. subst log2.
        destruct (IHes st2 (log1 ++ new1)) as (new2 & Heq2 & Hnew2).
        assert (Hboth : exists new,
                   snd (fst (walkEntries (recording walkFn) path es
                               (st2, log1 ++ new1))) = log1 ++ new
                   /\ Forall (extends path) new).
        { exists (new1 ++ new2). split.
          - rewrite Heq2, <- app_assoc. reflexivity.
          - apply Forall_app. now split. }
        destruct err2 as [e|]; [|exact Hboth].
        destruct (negb (nodeIsDir child) || negb (isSkipDir e));
          [|exact Hboth].
        exists new1. simpl. now split.
Qed.

End Recording.

Section RootRecording.

Variables (root : Path) (cfg : Config).

Lemma below_git_entry : ~ below root ".git" (entryPath root [".git"]).
Proof.
  intros (rest & Hne & Heq). unfold entryPath, Join in Heq.
  injection Heq as Heq. apply app_inv_head in Heq.
  injection Heq as <-. contradiction.
Qed.

Lemma below_git_root : ~ below root ".git" root.
Proof.
  intros (rest & Hne & Heq). unfold Join in Heq.
  apply (f_equal elems) in Heq. simpl in Heq.
  apply (f_equal (@List.length string)) in Heq.
  rewrite length_app in Heq. simpl in Heq. lia.
Qed.

Lemma below_git_other name p :
  name <> ".git" -> extends (entryPath root [name]) p ->
  ~ below root ".git" p.
Proof.
  intros Hname [ext ->] (rest & Hne & Heq).
  unfold entryPath, Join in Heq. simpl in Heq.
  injection Heq as Heq. rewrite <- app_assoc in Heq.
  apply app_inv_head in Heq. simpl in Heq. congruence.
Qed.

(** Nothing below the entry [.git] of the root is recorded. *)
Lemma walkEntries_root_log es :
  forall st log,
    exists new,
      snd (fst (walkEntries (recording (gatherFn root cfg)) root es
                  (st, log))) = log ++ new
      /\ Forall (fun p => ~ below root ".git" p) new.
Proof.
  induction es as [|[name child] es IH]; intros st log.
  - exists []. simpl. rewrite app_nil_r. split; constructor.
  - simpl walkEntries.
    change (Join root (relPath [name])) with (entryPath root [name]).
    destruct (String.eqb name ".git") eqn:Hgit.
    + apply String.eqb_eq in Hgit. subst name.
      destruct child as [|sub].
      * simpl. unfold recording. simpl. rewrite gatherFn_git. simpl.
        exists [entryPath root [".git"]]. split; [reflexivity|].
        constructor; [apply below_git_entry|constructor].
      * rewrite walk_Dir. unfold recording at 1. simpl.
        rewrite gatherFn_git. simpl.
        destruct (IH st (log ++ [entryPath root [".git"]]))
          as (new & Heq & Hnew).
        exists (entryPath root [".git"] :: new). split.
        -- rewrite Heq, <- app_assoc. reflexivity.
        -- constructor; [apply below_git_entry|exact Hnew].
    + apply String.eqb_neq in Hgit.
      destruct (walk_recording_log (gatherFn root cfg) child
                  (entryPath root [name]) st log) as (new1 & Heq1 & Hnew1).
      assert (Hnew1' : Forall (fun p => ~ below root ".git" p) new1).
      { eapply List.Forall_impl; [|exact Hnew1].
        intros p. now apply below_git_other. }
      destruct (walk (recording (gatherFn root cfg)) _ child (st, log))
        as [[st2 log2] err2].
      simpl in Heq1. subst log2.
      destruct (IH st2 (log ++ new1)) as (new2 & Heq2 & Hnew2).
      assert (Hboth : exists new,
                 snd (fst (walkEntries (recording (gatherFn root cfg)) root
                             es (st2, log ++ new1))) = log ++ new
                 /\ Forall (fun p => ~ below root ".git" p) new).
      { exists (new1 ++ new2). split.
        - rewrite Heq2, <- app_assoc. reflexivity.
        - apply Forall_app. now split. }
      destruct err2 as [e|]; [|exact Hboth].
      destruct (negb (nodeIsDir child) || negb (isSkipDir e));
        [|exact Hboth].
      exists new1. simpl. now split.
Qed.

Lemma Walk_recording_log tree :
  Forall (fun p => ~ below root ".git" p)
    (snd (fst (Walk tree root (recording (gatherFn root cfg)) ([], [])))).
Proof.
  unfold Walk.
  assert (Hroot : gatherFn root cfg root (mkInfo true) []
                  = ([], None)
                  /\ exists st, gatherFn root cfg root (mkInfo false) []
                                = (st, None)).
  { pose proof (gatherFn_unreserved root cfg [] (mkInfo true) []
                  unreserved_root) as Hd.
    pose proof (gatherFn_unreserved root cfg [] (mkInfo false) []
                  unreserved_root) as Hf.
    rewrite entryPath_nil in Hd, Hf. cbn [IsDir negb] in Hd.
    rewrite andb_false_r in Hd. split; [exact Hd|].
    eexists. exact Hf. }
  destruct Hroot as [Hdir (st & Hfile)].
  destruct tree as [|es].
  - simpl. unfold recording. simpl. rewrite Hfile. simpl.
    constructor; [apply below_git_root|constructor].
  - rewrite walk_Dir. unfold recording at 1. simpl. rewrite Hdir. simpl.
    destruct (walkEntries_root_log es [] [root]) as (new & Heq & Hnew).
    destruct (walkEntries (recording (gatherFn root cfg)) root es ([], [root]))
      as [[st2 log2] err2].
    simpl in Heq. subst log2.
    assert (Hall : Forall (fun p => ~ below root ".git" p) ([root] ++ new)).
    { apply Forall_app. split; [|exact Hnew].
      constructor; [apply below_git_root|constructor]. }
    destruct err2 as [[|e]|]; exact Hall.
Qed.

End RootRecording.

Lemma text_single segs name :
  text (relPath segs) = name ->
  hasSeparator name = false -> name <> "." ->
  segs = [name].
Proof.
  intros Htext Hsep Hdot. destruct segs as [|a [|b l]].
  - exfalso. apply Hdot. symmetry. exact Htext.
  - f_equal. exact Htext.
  - pose proof (text_nested a b l) as Hs. rewrite Htext in Hs. congruence.
Qed.

Lemma candidates_unreserved tree segs :
  In segs (candidates tree) -> ~ underGit segs /\ segs <> [ConfigFileName].
Proof.
  destruct tree as [|es]; simpl.
  - intros [<-|[]]. split; [intros [r Hr]|]; discriminate.
  - apply rootCandidates_unreserved.
Qed.

Lemma In_map_relPath segs l : In (relPath segs) (map relPath l) <-> In segs l.
Proof.
  rewrite in_map_iff. split.
  - intros (s & Heq & Hin). now injection Heq as ->.
  - intros Hin. now exists segs.
Qed.

(** C8.  Whatever the rules are, [gatherFiles] returns a list that holds
    neither the configuration file of the root nor any entry at or under
    the entry [.git] of the root, and its callback is never called on a
    path below that entry. *)
Theorem gatherFiles_skips_reserved (w : World) (root : Path) (cfg : Config) :
  exists files,
    fst (gatherFiles w root cfg) = Ok files
    /\ (forall p, In p files ->
          p <> relPath [ConfigFileName] /\ text p <> ConfigFileName
          /\ text p <> ".git" /\ ~ underGit (elems p))
    /\ Forall (fun p => ~ below root ".git" p) (visited w root cfg).
Proof.
  rewrite gatherFiles_candidates. eexists. split; [reflexivity|]. split.
  - intros p Hin. apply in_map_iff in Hin. destruct Hin as (segs & <- & Hin).
    apply List.filter_In in Hin. destruct Hin as [Hin _].
    apply candidates_unreserved in Hin. destruct Hin as [Hgit Hcfg].
    repeat split.
    + intros Heq. now injection Heq.
    + intros Heq. apply text_single in Heq; [contradiction|reflexivity|].
      discriminate.
    + intros Heq. apply text_single in Heq; [|reflexivity|discriminate].
      apply Hgit. now exists [].
    + exact Hgit.
  - apply Walk_recording_log.
Qed.

(** The recorded walk is the walk of [gatherFiles]. *)
Lemma visited_same_walk (w : World) (root : Path) (cfg : Config) :
  Ok (fst (fst (Walk (Tree w root) root (recording (gatherFn root cfg))
                  ([], []))))
  = fst (gatherFiles w root cfg).
Proof.
  rewrite gatherFiles_candidates. cbn [fst]. f_equal.
  transitivity (fst (Walk (Tree w root) root (gatherFn root cfg) []));
    [|now rewrite Walk_gatherFn].
  unfold Walk.
  pose proof (walk_recording_same (gatherFn root cfg) (Tree w root) root [] [])
    as Hsame.
  destruct (walk (recording (gatherFn root cfg)) root (Tree w root) ([], []))
    as [[st log] err].
  simpl in Hsame. rewrite <- Hsame.
  now destruct err as [[|e]|].
Qed.

(** When the root lists no non-directory [.git], each non-directory of the
    tree outside the reserved entries is decided by the rules on its own
    path, whatever the rules say of the directories above it; and nothing
    but such non-directories is returned. *)
Lemma gatherFiles_each_file_by_itself (w : World) (root : Path)
    (cfg : Config) (es : list (string * Node)) (files : list Path) :
  Tree w root = Dir es ->
  fileAt es [".git"] = false ->
  fst (gatherFiles w root cfg) = Ok files ->
  (forall segs,
      fileAt es segs = true -> ~ underGit segs -> segs <> [ConfigFileName] ->
      (In (relPath segs) files <-> selects cfg root segs = true))
  /\ (forall p, In p files ->
        exists segs, p = relPath segs /\ fileAt es segs = true
                     /\ selects cfg root segs = true).
Proof.
  intros Htree Hnogit Hfiles.
  rewrite gatherFiles_candidates, Htree in Hfiles. simpl in Hfiles.
  injection Hfiles as <-. split.
  - intros segs Hfile Hgit Hcfg.
    rewrite In_map_relPath, List.filter_In. split; [now intros [_ H]|].
    intros Hsel. split; [|exact Hsel].
    apply rootCandidates_complete; try assumption.
    now apply (fileAt_entriesFiles segs es []).
  - intros p Hin. apply in_map_iff in Hin. destruct Hin as (segs & <- & Hin).
    apply List.filter_In in Hin. destruct Hin as [Hin Hsel].
    exists segs. repeat split; [|exact Hsel].
    apply rootCandidates_entries, entriesFiles_fileAt in Hin.
    now destruct Hin as (rest & -> & Hrest).
Qed.

(** The example of the README on any tree: [out/bar.txt] and [build/x] are
    never returned, and [out/foo.txt] is returned when the tree has it and
    the root lists no non-directory [.git]. *)
Lemma gatherFiles_readme_rules (w : World) (root : Path)
    (licenses : list string) (es : list (string * Node))
    (rules : searchRules) (files : list Path) :
  unmarshalRules Match.New Demo.entries [] = Ok rules ->
  Tree w root = Dir es ->
  fst (gatherFiles w root (mkConfig rules licenses)) = Ok files ->
  ~ In (relPath ["out"; "bar.txt"]) files
  /\ ~ In (relPath ["build"; "x"]) files
  /\ (fileAt es [".git"] = false -> fileAt es ["out"; "foo.txt"] = true ->
      In (relPath ["out"; "foo.txt"]) files).
Proof.
  intros Hrules Htree Hfiles. injection Hrules as <-.
  assert (Hsel : forall segs,
             selects (mkConfig [excludeFunc
                                  [fun path => Match.matches
                                                 (Match.compile "out/*") path;
                                   fun path => Match.matches
                                                 (Match.compile "build/*") path];
                                includeFunc
                                  [fun path => Match.matches
                                                 (Match.compile "out/foo.txt")
                                                 path]] licenses) root segs
             = fold_left (fun res (f : rule) => f (text (relPath segs)) res)
                 [excludeFunc
                    [fun path => Match.matches (Match.compile "out/*") path;
                     fun path => Match.matches (Match.compile "build/*") path];
                  includeFunc
                    [fun path => Match.matches (Match.compile "out/foo.txt")
                                   path]] true).
  { intros segs. unfold selects, shouldExamine.
    now rewrite Rel_entryPath. }
  pose proof Hfiles as Hraw.
  rewrite gatherFiles_candidates in Hraw. simpl in Hraw.
  injection Hraw as <-.
  repeat split.
  - rewrite In_map_relPath, List.filter_In. intros [_ H].
    rewrite Hsel in H. vm_compute in H. discriminate.
  - rewrite In_map_relPath, List.filter_In. intros [_ H].
    rewrite Hsel in H. vm_compute in H. discriminate.
  - intros Hnogit Hfoo.
    eapply gatherFiles_each_file_by_itself in Hfiles as [Hiff _];
      [|exact Htree|exact Hnogit].
    apply Hiff; [exact Hfoo| | |].
    + intros [r Hr]. discriminate.
    + discriminate.
    + rewrite Hsel. vm_compute. reflexivity.
Qed.

(** C2.  On the worktree checkout of the README project, whose root lists
    [.git] as a file, [out/foo.txt] is a file of the tree and the rules
    select it, yet [gatherFiles] returns nothing: the callback answers
    [SkipDir] on the non-directory [.git] and [Walk] drops the rest of the
    root.  On the clone of the same project, where [.git] is a directory,
    exactly [out/foo.txt] is returned. *)
Theorem gatherFiles_git_file_ends_walk :
  gitFileAtRoot Demo.worktree = true
  /\ fileAt [ (".git", File);
              ("build", Dir [("x", File)]);
              ("license-checker.cfg", File);
              ("out", Dir [("bar.txt", File); ("foo.txt", File)]) ]
       ["out"; "foo.txt"] = true
  /\ shouldExamine (Demo.configOf Demo.worktreeWorld) Demo.root
       (entryPath Demo.root ["out"; "foo.txt"]) = true
  /\ fst (gatherFiles Demo.worktreeWorld Demo.root
            (Demo.configOf Demo.worktreeWorld)) = Ok []
  /\ fst (gatherFiles Demo.cloneWorld Demo.root
            (Demo.configOf Demo.cloneWorld))
     = Ok [relPath ["out"; "foo.txt"]].
Proof.
  repeat split; vm_compute; reflexivity.
Qed.

(** ** The scan of a config *)

Lemma runConfig_fst (w : World) (cfg : Config) (root : Path)
    (files : list Path) :
  fst (gatherFiles w root cfg) = Ok files ->
  fst (runConfig w cfg root)
  = removeNilErrs
      (fst (runGoroutines w root cfg files (schedule w files)
              (replicate (List.length files) None))).
Proof.
  intros Hg. unfold runConfig. rewrite fst_bind, Hg, fst_bind, fst_bind.
  reflexivity.
Qed.

(** C3.  For every file list and any order in which the goroutines run
    to completion, the slots filled by [runConfig] are those of the
    sequential scan: slot [i] holds the outcome of examining [files[i]].
    What [removeNilErrs] keeps are the errors among the slots, by increasing
    index of their file, and that is what [runConfig] returns for the file
    list of its walk. *)
Theorem runConfig_is_sequential (w : World) (cfg : Config) (root : Path)
    (files : list Path)
    (Hsched : Permutation (schedule w files) (seq 0 (List.length files))) :
  let slots := fst (runGoroutines w root cfg files (schedule w files)
                      (replicate (List.length files) None)) in
  slots = scanSequential w root cfg files
  /\ (forall i file, files !! i = Some file ->
        slots !! i = Some (fst (examine w root file cfg)))
  /\ removeNilErrs slots = failures (scanSequential w root cfg files)
  /\ (exists idx,
         StronglySorted lt idx
         /\ (forall i, In i idx <-> exists e, slots !! i = Some (Some e))
         /\ Forall2 (fun i e => slots !! i = Some (Some e)) idx
              (removeNilErrs slots))
  /\ (fst (gatherFiles w root cfg) = Ok files ->
      fst (runConfig w cfg root) = removeNilErrs slots).
Proof.
  intros slots.
  assert (Hslots : slots = scanSequential w root cfg files)
    by now apply runGoroutines_sequential.
  split; [exact Hslots|]. split; [|split; [|split]].
  - intros i file Hi. rewrite Hslots, scanSequential_map.
    change (map ?f files) with (f <$> files).
    now rewrite list_lookup_fmap, Hi.
  - now rewrite removeNilErrs_failures, Hslots.
  - rewrite removeNilErrs_failures. apply failures_by_index.
  - intros Hfiles. now apply runConfig_fst.
Qed.

(** C4.  [examine] puts a file in exactly one of four classes.  A failed
    read gives the read-failure error of that file; a read on which the
    oracle finds nothing gives the no-license error; otherwise the first
    identifier that is not permitted gives the not-permitted error that
    names it, whatever follows it; and a file with at least one identifier,
    all of them permitted, gives nil.  In the slots of [runConfig] every
    file has its own class, whatever happens to the other files. *)
Theorem examine_four_outcomes (w : World) (root : Path) (cfg : Config) :
  (forall path,
      fst (examine w root path cfg)
      = report path (classify (Licenses cfg) (fsRead w (Join root path))
                       (Scan w)))
  /\ (forall path cause,
         fsRead w (Join root path) = Err cause ->
         fst (examine w root path cfg) = Some (ErrReadFile (text path) cause))
  /\ (forall path body,
         fsRead w (Join root path) = Ok body -> Scan w body = [] ->
         fst (examine w root path cfg) = Some (ErrNoLicense (text path)))
  /\ (forall path body before m after,
         fsRead w (Join root path) = Ok body ->
         Scan w body = before ++ m :: after ->
         Forall (fun m' => allowsLicense cfg (licensecheck.ID m') = true)
           before ->
         allowsLicense cfg (licensecheck.ID m) = false ->
         fst (examine w root path cfg)
         = Some (ErrUnsupported (text path) (licensecheck.ID m)))
  /\ (forall path body,
         fsRead w (Join root path) = Ok body -> Scan w body <> [] ->
         Forall (fun m => allowsLicense cfg (licensecheck.ID m) = true)
           (Scan w body) ->
         fst (examine w root path cfg) = None)
  /\ (forall files i file,
         Permutation (schedule w files) (seq 0 (List.length files)) ->
         files !! i = Some file ->
         fst (runGoroutines w root cfg files (schedule w files)
                (replicate (List.length files) None)) !! i
         = Some (report file (classify (Licenses cfg)
                                (fsRead w (Join root file)) (Scan w)))).
Proof.
  assert (Hloop : forall path before rest,
             Forall (fun m' => allowsLicense cfg (licensecheck.ID m') = true)
               before ->
             checkMatches cfg path (before ++ rest)
             = checkMatches cfg path rest).
  { intros path before rest Hall.
    induction Hall as [|m' before Hm' _ IH]; [reflexivity|].
    simpl. now rewrite Hm'. }
  assert (Hexamine : forall path body,
             fsRead w (Join root path) = Ok body ->
             fst (examine w root path cfg)
             = if (List.length (Scan w body) =? 0)%nat
               then Some (ErrNoLicense (text path))
               else checkMatches cfg path (Scan w body)).
  { intros path body Hread. unfold examine.
    rewrite fst_bind, ReadFile_fst, Hread.
    now destruct (List.length (Scan w body) =? 0)%nat. }
  repeat split.
  - intros path. apply examine_classify.
  - intros path cause Hread. unfold examine.
    now rewrite fst_bind, ReadFile_fst, Hread.
  - intros path body Hread Hscan.
    now rewrite (Hexamine _ _ Hread), Hscan.
  - intros path body before m after Hread Hscan Hbefore Hm.
    rewrite (Hexamine _ _ Hread), Hscan.
    replace (List.length (before ++ m :: after) =? 0)%nat with false
      by (symmetry; apply Nat.eqb_neq; rewrite length_app; simpl; lia).
    rewrite Hloop by assumption. simpl. now rewrite Hm.
  - intros path body Hread Hne Hall.
    rewrite (Hexamine _ _ Hread).
    destruct (Scan w body) as [|m ms]; [contradiction|].
    change (List.length (m :: ms) =? 0)%nat with false. cbv iota.
    rewrite <- (app_nil_r (m :: ms)). now rewrite Hloop.
  - intros files i file Hperm Hi.
    rewrite runGoroutines_sequential by assumption.
    rewrite scanSequential_map.
    change (map ?f files) with (f <$> files).
    rewrite list_lookup_fmap, Hi. simpl. now rewrite examine_classify.
Qed.

(** C10.  With an empty list of permitted licenses [allowsLicense] is
    false for every identifier, so a file that can be read is reported as
    not permitted, naming the first identifier the oracle detects, or as
    having no license when the oracle detects none; no file is ok. *)
Theorem empty_licenses_reject_all (w : World) (root : Path) (cfg : Config)
    (Hempty : Licenses cfg = []) :
  (forall name, allowsLicense cfg name = false)
  /\ (forall path body m rest,
         fsRead w (Join root path) = Ok body -> Scan w body = m :: rest ->
         fst (examine w root path cfg)
         = Some (ErrUnsupported (text path) (licensecheck.ID m)))
  /\ (forall path body,
         fsRead w (Join root path) = Ok body -> Scan w body = [] ->
         fst (examine w root path cfg) = Some (ErrNoLicense (text path)))
  /\ (forall path, fst (examine w root path cfg) <> None).
Proof.
  assert (Hnone : forall name, allowsLicense cfg name = false).
  { intros name. unfold allowsLicense. now rewrite Hempty. }
  repeat split.
  - exact Hnone.
  - intros path body m rest Hread Hscan. unfold examine.
    rewrite fst_bind, ReadFile_fst, Hread, Hscan. simpl.
    now rewrite Hnone.
  - intros path body Hread Hscan. unfold examine.
    now rewrite fst_bind, ReadFile_fst, Hread, Hscan.
  - intros path. unfold examine. rewrite fst_bind, ReadFile_fst.
    destruct (fsRead w (Join root path)) as [body|cause]; [|discriminate].
    destruct (Scan w body) as [|m rest]; simpl; [discriminate|].
    rewrite Hnone. discriminate.
Qed.

(** ** The run *)

Lemma string_app_assoc (a b c : string) :
  ((a ++ b) ++ c)%string = (a ++ b ++ c)%string.
Proof.
  induction a as [|x a IH]; simpl; [reflexivity|]. now rewrite IH.
Qed.

Lemma string_app_nil_r (a : string) : (a ++ "")%string = a.
Proof.
  induction a as [|x a IH]; simpl; [reflexivity|]. now rewrite IH.
Qed.

Lemma Contains_prefix (pre rest : string) :
  Contains (pre ++ rest) pre = true.
Proof.
  assert (H : String.prefix pre (pre ++ rest) = true).
  { induction pre as [|c pre IH]; simpl; [now destruct rest|].
    destruct (ascii_dec c c); [exact IH|contradiction]. }
  remember (pre ++ rest)%string as s eqn:Hs. clear Hs.
  destruct s; cbn -[String.prefix]; now rewrite H.
Qed.

(** The text built with [strings.Builder] is the count followed by the
    failure lines. *)
Lemma aggregate_text (errs : list error) : aggregate errs = aggregateText errs.
Proof.
  unfold aggregate, aggregateText.
  enough (forall init,
             fold_left (fun msg err => (msg ++ "* " ++ Error err ++ nl)%string)
               errs init
             = (init ++ failureLines errs)%string) as H.
  { rewrite H, !string_app_assoc. reflexivity. }
  induction errs as [|e errs IH]; intros init; cbn [fold_left failureLines].
  - now rewrite string_app_nil_r.
  - rewrite IH, !string_app_assoc. reflexivity.
Qed.

Lemma walks_app (t1 t2 : list Event) : walks (t1 ++ t2) = walks t1 + walks t2.
Proof.
  unfold walks. now rewrite List.filter_app, length_app.
Qed.

Section Run.

Variables (w : World) (root : Path).

Lemma loadConfigs_trace : snd (loadConfigs w root) = [EvReadFile (configPath root)].
Proof.
  unfold loadConfigs. rewrite snd_bind, ReadFile_snd, ReadFile_fst.
  fold (configPath root).
  destruct (fsRead w (configPath root)) as [body|]; [|reflexivity].
  destruct (HasPrefix (TrimLeft body cutset) "{").
  - destruct (jsonConfig w body) as [raw|]; [|reflexivity].
    now destruct (decodeConfig w raw).
  - now destruct (jsonConfigs w body).
Qed.

Lemma loadConfigs_fst :
  fst (loadConfigs w root)
  = bindR (fsRead w (configPath root))
      (fun body => bindR (rawConfigs w body) (decodeConfigs w)).
Proof.
  unfold loadConfigs. rewrite fst_bind, ReadFile_fst. fold (configPath root).
  destruct (fsRead w (configPath root)) as [body|]; [|reflexivity].
  simpl. unfold rawConfigs.
  destruct (HasPrefix (TrimLeft body cutset) "{").
  - destruct (jsonConfig w body) as [raw|]; [|reflexivity].
    simpl. now destruct (decodeConfig w raw).
  - now destruct (jsonConfigs w body).
Qed.

Lemma runGoroutines_walks cfg files sched :
  forall errs, walks (snd (runGoroutines w root cfg files sched errs)) = 0.
Proof.
  induction sched as [|i sched IH]; intros errs; simpl; [reflexivity|].
  rewrite snd_bind, walks_app, IH. unfold goroutine.
  destruct (files !! i); [|reflexivity].
  now rewrite snd_bind, examine_trace.
Qed.

(** Each processed config walks the tree once. *)
Lemma runConfig_walks cfg : walks (snd (runConfig w cfg root)) = 1.
Proof.
  unfold runConfig. rewrite snd_bind, gatherFiles_candidates.
  cbn [fst snd]. rewrite snd_bind. cbv beta. rewrite snd_bind.
  rewrite !walks_app, runGoroutines_walks. reflexivity.
Qed.

Lemma walks_flat_map (cfgs : list Config) :
  walks (flat_map (fun c => snd (runConfig w c root)) cfgs)
  = List.length cfgs.
Proof.
  induction cfgs as [|c cfgs IH]; simpl; [reflexivity|].
  now rewrite walks_app, runConfig_walks, IH.
Qed.

(** The loop ends at the first config with failures. *)
Lemma checkConfigs_failing (pre post : list Config) (cfg : Config) :
  (forall c, In c pre -> fst (runConfig w c root) = []) ->
  fst (runConfig w cfg root) <> [] ->
  checkConfigs w root (pre ++ cfg :: post)
  = (Some (ErrAggregate (aggregate (fst (runConfig w cfg root)))),
     flat_map (fun c => snd (runConfig w c root)) (pre ++ [cfg])).
Proof.
  intros Hpre Hcfg.
  induction pre as [|c pre IH]; simpl.
  - unfold bind. destruct (runConfig w cfg root) as [errs t]. simpl in *.
    destruct errs as [|e errs]; [contradiction|]. simpl.
    now rewrite !app_nil_r.
  - unfold bind at 1. pose proof (Hpre c (or_introl eq_refl)) as Hc.
    destruct (runConfig w c root) as [errs t]. simpl in Hc. subst errs.
    simpl. rewrite IH by (intros c' Hc'; apply Hpre; now right).
    reflexivity.
Qed.

(** The loop runs through when no config has failures. *)
Lemma checkConfigs_clean (cfgs : list Config) :
  (forall c, In c cfgs -> fst (runConfig w c root) = []) ->
  checkConfigs w root cfgs
  = (None, flat_map (fun c => snd (runConfig w c root)) cfgs
           ++ [EvPrintf ("No license issues found" ++ nl)]).
Proof.
  intros Hall. induction cfgs as [|c cfgs IH]; simpl; [reflexivity|].
  unfold bind at 1. pose proof (Hall c (or_introl eq_refl)) as Hc.
  destruct (runConfig w c root) as [errs t]. simpl in Hc. subst errs.
  simpl. rewrite IH by (intros c' Hc'; apply Hall; now right).
  now rewrite app_assoc.
Qed.

Lemma Check_loaded dir cfgs :
  Abs w dir = Ok root -> fst (loadConfigs w root) = Ok cfgs ->
  Check w dir
  = (fst (checkConfigs w root cfgs),
     EvReadFile (configPath root) :: snd (checkConfigs w root cfgs)).
Proof.
  intros Habs Hload. unfold Check. rewrite Habs.
  pose proof loadConfigs_trace as Ht.
  destruct (loadConfigs w root) as [r t]. simpl in Hload, Ht. subst r t.
  unfold bind. now destruct (checkConfigs w root cfgs).
Qed.

End Run.

(** C5.  [Check] goes through the configs in the order they were loaded.
    The first config whose scan returns errors ends the run with a single
    error whose text is the count and one line per error, in the order
    [runConfig] returned them; only the configs up to that one have been
    walked.  When no config returns an error the result is nil. *)
Theorem Check_stops_at_first_failing_config (w : World) (dir : string)
    (root : Path) (cfgs : Configs)
    (Habs : Abs w dir = Ok root)
    (Hload : fst (loadConfigs w root) = Ok cfgs) :
  (forall pre cfg post,
      cfgs = pre ++ cfg :: post ->
      (forall c, In c pre -> fst (runConfig w c root) = []) ->
      fst (runConfig w cfg root) <> [] ->
      fst (Check w dir)
      = Some (ErrAggregate (aggregateText (fst (runConfig w cfg root))))
      /\ snd (Check w dir)
         = EvReadFile (configPath root)
             :: flat_map (fun c => snd (runConfig w c root)) (pre ++ [cfg])
      /\ walks (snd (Check w dir)) = S (List.length pre))
  /\ ((forall c, In c cfgs -> fst (runConfig w c root) = []) ->
      fst (Check w dir) = None
      /\ walks (snd (Check w dir)) = List.length cfgs).
Proof.
  rewrite (Check_loaded w root dir cfgs Habs Hload). cbn [fst snd]. split.
  - intros pre cfg post -> Hpre Hcfg.
    rewrite (checkConfigs_failing w root pre post cfg Hpre Hcfg).
    cbn [fst snd]. rewrite aggregate_text. repeat split.
    change (EvReadFile (configPath root) :: ?t)
      with ([EvReadFile (configPath root)] ++ t).
    rewrite walks_app, walks_flat_map, length_app. unfold walks.
    cbn [List.filter List.length]. lia.
  - intros Hall. rewrite (checkConfigs_clean w root cfgs Hall).
    cbn [fst snd]. split; [reflexivity|].
    change (EvReadFile (configPath root) :: ?t)
      with ([EvReadFile (configPath root)] ++ t).
    rewrite !walks_app, walks_flat_map. unfold walks.
    cbn [List.filter List.length]. lia.
Qed.

(** ** Errors of the configuration *)

Lemma decodeConfigs_fails (w : World) (raws : list RawConfig) :
  Exists (fun raw => exists e, decodeConfig w raw = Err e) raws ->
  exists e, decodeConfigs w raws = Err e.
Proof.
  induction raws as [|raw raws IH]; intros H; [inversion H|].
  simpl. destruct (decodeConfig w raw) as [cfg|e] eqn:Hraw;
    [|now exists e].
  inversion H as [? ? [e He]|? ? Hlater]; subst; [congruence|].
  destruct (IH Hlater) as [e ->]. now exists e.
Qed.

Lemma decodeConfigs_first_failure (w : World) before raw after cfgs e :
  decodeConfigs w before = Ok cfgs ->
  decodeConfig w raw = Err e ->
  decodeConfigs w (before ++ raw :: after) = Err e.
Proof.
  revert cfgs. induction before as [|r before IH]; intros cfgs Hb Hraw; simpl.
  - now rewrite Hraw.
  - simpl in Hb. destruct (decodeConfig w r) as [cfg|]; [|discriminate].
    destruct (decodeConfigs w before) as [cfgs'|]; [|discriminate].
    now rewrite (IH cfgs').
Qed.

(** C7, as amended.  A config that cannot be loaded ends [Check] at once:
    the result is the single error [Failed to load config file: ...] and
    the only step taken is the read of the config file, so no tree is
    walked and no project file is read.  The config cannot be loaded when
    its file cannot be read, when the decoder rejects its text, and when a
    rule entry carries both lists; in the last case the cause is
    [Rule cannot contain both include and exclude] provided the configs and
    entries decoded before that entry raise no error of their own. *)
Theorem config_errors_end_the_run (w : World) (dir : string) (root : Path)
    (Habs : Abs w dir = Ok root) :
  (forall e,
      fst (loadConfigs w root) = Err e ->
      Check w dir = (Some (ErrLoadConfig e), [EvReadFile (configPath root)])
      /\ Error (ErrLoadConfig e)
         = ("Failed to load config file: " ++ Error e)%string
      /\ Contains (Error (ErrLoadConfig e)) "Failed to load config file" = true)
  /\ (forall e,
         fsRead w (configPath root) = Err e ->
         fst (loadConfigs w root) = Err e)
  /\ (forall body e,
         fsRead w (configPath root) = Ok body ->
         rawConfigs w body = Err e ->
         fst (loadConfigs w root) = Err e)
  /\ (forall body raws,
         fsRead w (configPath root) = Ok body ->
         rawConfigs w body = Ok raws ->
         Exists (fun raw => exists text p,
                     rawPaths raw = Some text
                     /\ jsonRules w text = Ok p
                     /\ Exists conflicts p) raws ->
         exists e, fst (loadConfigs w root) = Err e)
  /\ (forall body before raw after cfgs text pre rs entry post,
         fsRead w (configPath root) = Ok body ->
         rawConfigs w body = Ok (before ++ raw :: after) ->
         decodeConfigs w before = Ok cfgs ->
         rawPaths raw = Some text ->
         jsonRules w text = Ok (pre ++ entry :: post) ->
         declares (matchNew w) pre rs ->
         conflicts entry ->
         fst (loadConfigs w root) = Err ErrRuleConflict
         /\ Contains (Error (ErrLoadConfig ErrRuleConflict))
              "Rule cannot contain both include and exclude" = true).
Proof.
  split; [|split; [|split; [|split]]].
  - intros e Hload. split; [|split].
    + unfold Check. rewrite Habs.
      pose proof (loadConfigs_trace w root) as Ht.
      destruct (loadConfigs w root) as [r t]. simpl in Hload, Ht.
      now subst r t.
    + reflexivity.
    + change (Error (ErrLoadConfig e))
        with ("Failed to load config file" ++ (": " ++ Error e))%string.
      apply Contains_prefix.
  - intros e Hread. rewrite loadConfigs_fst. now rewrite Hread.
  - intros body e Hread Hraw. rewrite loadConfigs_fst, Hread. simpl.
    now rewrite Hraw.
  - intros body raws Hread Hraw Hconf.
    rewrite loadConfigs_fst, Hread. simpl. rewrite Hraw. simpl.
    apply decodeConfigs_fails.
    eapply List.Exists_impl; [|exact Hconf].
    intros raw (text & p & Hpaths & Hrules & Hconflict).
    unfold decodeConfig, UnmarshalJSON. rewrite Hpaths, Hrules.
    destruct (unmarshalRules_conflict (matchNew w) p [] Hconflict) as [e ->].
    now exists e.
  - intros body before raw after cfgs text pre rs entry post
      Hread Hraw Hbefore Hpaths Hrules Hpre [Hi He].
    split; [|vm_compute; reflexivity].
    rewrite loadConfigs_fst, Hread. simpl. rewrite Hraw. simpl.
    apply (decodeConfigs_first_failure w before raw after cfgs); [assumption|].
    unfold decodeConfig, UnmarshalJSON. rewrite Hpaths, Hrules.
    now rewrite (unmarshalRules_conflict_first (matchNew w) pre rs entry post).
Qed.

(** C7, as stated, fails on the test case [bad-no-config]: the config file
    is missing, and the text of the error has the marker with a capital
    letter only. *)
Lemma missing_config_marker_is_capitalised :
  (exists cause, fsRead Demo.noConfigWorld (configPath Demo.root) = Err cause)
  /\ exists e,
       fst (Check Demo.noConfigWorld ".") = Some e
       /\ Contains (Error e) "failed to load config" = false
       /\ Contains (Error e) "Failed to load config file" = true.
Proof.
  split; [eexists; reflexivity|].
  eexists. split; [reflexivity|]. split; vm_compute; reflexivity.
Qed.

(** When a pattern of an earlier entry does not compile, its error is the
    one reported, not the conflict of the later entry. *)
Example pattern_error_comes_first :
  fst (Check Demo.pickyWorld ".")
  = Some (ErrLoadConfig (ErrExt "bad pattern"))
  /\ Contains (Error (ErrLoadConfig (ErrExt "bad pattern")))
       "Rule cannot contain both include and exclude" = false.
Proof. split; vm_compute; reflexivity. Qed.

(** ** Patterns *)

Section Patterns.

Import Match.








End Patterns.


(** ** The theorems at work on the concrete projects *)

(** The entries of the README stand for two exclusions and one
    inclusion. *)
Lemma readme_ruleSet : ruleSet Match.New Demo.entries Demo.readmeRules.
Proof.
  apply ruleSet_exclude; [reflexivity|discriminate|repeat constructor|].
  apply ruleSet_include; [discriminate|reflexivity|repeat constructor|].
  constructor.
Qed.

(** The rules of the README are decoded, and their fold is what
    [shouldExamine] computes: the exclusion of [out/*] rejects
    [out/bar.txt], the inclusion that follows accepts [out/foo.txt] again,
    the exclusion of [build/*] rejects [build/x], and a path that no
    pattern matches is accepted. *)
Lemma shouldExamine_is_left_fold_witness :
  let cfg := Demo.configOf Demo.outWorld in
  UnmarshalJSON Demo.outWorld "[paths]" = Ok (Paths cfg)
  /\ shouldExamine (mkConfig (Paths cfg) (Licenses cfg)) Demo.root
       (entryPath Demo.root ["out"; "foo.txt"]) = true
  /\ shouldExamine (mkConfig (Paths cfg) (Licenses cfg)) Demo.root
       (entryPath Demo.root ["out"; "bar.txt"]) = false
  /\ shouldExamine (mkConfig (Paths cfg) (Licenses cfg)) Demo.root
       (entryPath Demo.root ["build"; "x"]) = false
  /\ shouldExamine (mkConfig (Paths cfg) (Licenses cfg)) Demo.root
       (entryPath Demo.root ["src"; "main.c"]) = true.
Proof.
  intros cfg. split; [reflexivity|].
  destruct (shouldExamine_is_left_fold Demo.outWorld "[paths]" (Paths cfg)
              eq_refl) as [(p & rs & Hp & Hrs & _ & Hfold) _].
  injection Hp as <-.
  rewrite (ruleSet_functional _ _ _ _ Hrs readme_ruleSet) in Hfold.
  split; [|split; [|split]]; rewrite Hfold; vm_compute; reflexivity.
Defined.

(** A path that is not rooted cannot be made relative to the rooted
    project directory, and the working directory cannot be made relative
    to its parent: [shouldExamine] rejects both, also with no rule. *)
Lemma shouldExamine_rel_error_witness :
  (exists e,
      Rel (ToSlash Demo.root) (ToSlash (relPath ["out"; "foo.txt"])) = Err e)
  /\ shouldExamine (Demo.configOf Demo.outWorld) Demo.root
       (relPath ["out"; "foo.txt"]) = false
  /\ (exists e, Rel (ToSlash (relPath [".."])) (ToSlash (relPath [])) = Err e)
  /\ shouldExamine (mkConfig [] []) (relPath [".."]) (relPath []) = false.
Proof.
  assert (Hrooted : unrelatable Demo.root (relPath ["out"; "foo.txt"])).
  { apply unrelatable_rooted. discriminate. }
  assert (Hback : unrelatable (relPath [".."]) (relPath [])).
  { apply (unrelatable_dotdot _ _ [] [] []); try reflexivity. discriminate. }
  split; [|split; [|split]].
  - exact (proj2 (proj1 (shouldExamine_rel_error (Demo.configOf Demo.outWorld)
                           Demo.root (relPath ["out"; "foo.txt"])))
             Hrooted).
  - exact (proj1 (proj2 (proj2 (shouldExamine_rel_error
                                  (Demo.configOf Demo.outWorld) Demo.root
                                  (relPath ["out"; "foo.txt"])))
                    Hrooted)).
  - exact (proj2 (proj1 (shouldExamine_rel_error (mkConfig [] [])
                           (relPath [".."]) (relPath [])))
             Hback).
  - exact (proj1 (proj2 (proj2 (shouldExamine_rel_error (mkConfig [] [])
                                  (relPath [".."]) (relPath [])))
                    Hback)).
Defined.

(** The three files of the strict project, scanned last file first. *)
Lemma runConfig_is_sequential_witness :
  let files := [relPath ["a.txt"]; relPath ["b.txt"]; relPath ["c.txt"]] in
  let cfg := Demo.configOf Demo.strictWorld in
  schedule Demo.strictWorld files = [2; 1; 0]
  /\ fst (runGoroutines Demo.strictWorld Demo.root cfg files
            (schedule Demo.strictWorld files)
            (replicate (List.length files) None))
     = scanSequential Demo.strictWorld Demo.root cfg files
  /\ fst (runConfig Demo.strictWorld cfg Demo.root)
     = removeNilErrs
         (fst (runGoroutines Demo.strictWorld Demo.root cfg files
                 (schedule Demo.strictWorld files)
                 (replicate (List.length files) None))).
Proof.
  intros files cfg. split; [reflexivity|].
  destruct (runConfig_is_sequential Demo.strictWorld cfg Demo.root files
              (Permutation_sym (Permutation_rev (seq 0 3))))
    as (Hslots & _ & _ & _ & Hrun).
  split; [exact Hslots|exact (Hrun eq_refl)].
Defined.

(** One file of each class. *)
Lemma examine_four_outcomes_witness :
  let w := Demo.strictWorld in
  let cfg := Demo.configOf Demo.strictWorld in
  fsRead w (Join Demo.root (relPath ["b.txt"]))
  = Err (ErrExt "open /proj/b.txt: no such file or directory")
  /\ fst (examine w Demo.root (relPath ["b.txt"]) cfg)
     = Some (ErrReadFile "b.txt"
               (ErrExt "open /proj/b.txt: no such file or directory"))
  /\ fst (examine w Demo.root (relPath ["a.txt"]) cfg)
     = Some (ErrUnsupported "a.txt" "GPL-3.0")
  /\ fst (examine Demo.outWorld Demo.root (relPath ["out"; "bar.txt"])
            (Demo.configOf Demo.outWorld))
     = Some (ErrNoLicense "out/bar.txt")
  /\ fst (examine Demo.outWorld Demo.root (relPath ["out"; "foo.txt"])
            (Demo.configOf Demo.outWorld))
     = None.
Proof.
  intros w cfg.
  destruct (examine_four_outcomes w Demo.root cfg)
    as (_ & Hread & _ & Hfirst & _).
  destruct (examine_four_outcomes Demo.outWorld Demo.root
              (Demo.configOf Demo.outWorld))
    as (_ & _ & Hnone & _ & Hok & _).
  split; [reflexivity|]. split; [|split; [|split]].
  - exact (Hread (relPath ["b.txt"]) _ eq_refl).
  - exact (Hfirst (relPath ["a.txt"]) "GPL+MIT" []
             (licensecheck.mkMatch "GPL-3.0" 0 3)
             [licensecheck.mkMatch "MIT" 4 7] eq_refl eq_refl
             (List.Forall_nil _) eq_refl).
  - exact (Hnone (relPath ["out"; "bar.txt"]) "no header" eq_refl eq_refl).
  - refine (Hok (relPath ["out"; "foo.txt"]) "MIT License" eq_refl _ _).
    + discriminate.
    + repeat constructor.
Defined.

(** The test case [bad-missing-license]: one config, one failure. *)
Lemma Check_stops_at_first_failing_config_witness :
  let w := Demo.srcWorld in
  let cfg := Demo.configOf Demo.srcWorld in
  Abs w "." = Ok Demo.root
  /\ fst (loadConfigs w Demo.root) = Ok ([] ++ cfg :: [])
  /\ fst (runConfig w cfg Demo.root)
     = [ErrNoLicense "src/missing-license.cpp"]
  /\ fst (Check w ".")
     = Some (ErrAggregate
               ("1 errors:" ++ nl
                ++ "* src/missing-license.cpp has no license" ++ nl))
  /\ walks (snd (Check w ".")) = 1.
Proof.
  intros w cfg. split; [reflexivity|]. split; [reflexivity|].
  split; [reflexivity|].
  destruct (proj1 (Check_stops_at_first_failing_config w "." Demo.root
                     ([] ++ cfg :: []) eq_refl eq_refl)
              [] cfg [] eq_refl
              (fun c (H : In c []) => match H with end)
              (fun H : fst (runConfig w cfg Demo.root) = [] =>
                 match H in _ = l return match l with
                                         | [] => False
                                         | _ => True
                                         end with
                 | eq_refl => I
                 end))
    as (Hres & _ & Hwalks).
  split; [exact Hres|exact Hwalks].
Defined.

(** The test case [bad-no-config], and a config with a conflicting rule
    entry. *)
Lemma config_errors_end_the_run_witness :
  Abs Demo.noConfigWorld "." = Ok Demo.root
  /\ Check Demo.noConfigWorld "."
     = (Some (ErrLoadConfig
                (ErrExt "open /proj/license-checker.cfg: no such file or directory")),
        [EvReadFile (configPath Demo.root)])
  /\ Abs Demo.conflictWorld "." = Ok Demo.root
  /\ Check Demo.conflictWorld "."
     = (Some (ErrLoadConfig ErrRuleConflict),
        [EvReadFile (configPath Demo.root)]).
Proof.
  split; [reflexivity|]. split; [|split; [reflexivity|]].
  - exact (proj1 (proj1 (config_errors_end_the_run Demo.noConfigWorld "."
                           Demo.root eq_refl) _ eq_refl)).
  - exact (proj1 (proj1 (config_errors_end_the_run Demo.conflictWorld "."
                           Demo.root eq_refl) _ eq_refl)).
Defined.

(** The strict project permits nothing. *)
Lemma empty_licenses_reject_all_witness :
  Licenses (Demo.configOf Demo.strictWorld) = []
  /\ (forall name, allowsLicense (Demo.configOf Demo.strictWorld) name = false)
  /\ fst (examine Demo.strictWorld Demo.root (relPath ["c.txt"])
            (Demo.configOf Demo.strictWorld))
     = Some (ErrUnsupported "c.txt" "MIT").
Proof.
  split; [reflexivity|].
  destruct (empty_licenses_reject_all Demo.strictWorld Demo.root
              (Demo.configOf Demo.strictWorld) eq_refl)
    as (Hall & Hfirst & _).
  split; [exact Hall|].
  exact (Hfirst (relPath ["c.txt"]) "MIT License"
           (licensecheck.mkMatch "MIT" 0 3) [] eq_refl eq_refl).
Defined.

(** The goroutines of the strict project finish last file first, and the
    errors still come out first file first. *)
Example strict_project_order :
  reads (snd (runConfig Demo.strictWorld (Demo.configOf Demo.strictWorld)
                Demo.root))
  = [ Join Demo.root (relPath ["c.txt"]); Join Demo.root (relPath ["b.txt"]);
      Join Demo.root (relPath ["a.txt"]) ]
  /\ fst (runConfig Demo.strictWorld (Demo.configOf Demo.strictWorld)
            Demo.root)
     = [ ErrUnsupported "a.txt" "GPL-3.0";
         ErrReadFile "b.txt"
           (ErrExt "open /proj/b.txt: no such file or directory");
         ErrUnsupported "c.txt" "MIT" ].
Proof. split; vm_compute; reflexivity. Qed.

(** A rule that includes everything still leaves out the reserved
    entries. *)
Example everything_but_reserved :
  fst (gatherFiles Demo.everythingWorld Demo.root
         (Demo.configOf Demo.everythingWorld))
  = Ok [ relPath ["build"; "x"]; relPath ["out"; "bar.txt"];
         relPath ["out"; "foo.txt"] ]
  /\ visited Demo.everythingWorld Demo.root
       (Demo.configOf Demo.everythingWorld)
     = [ Demo.root; entryPath Demo.root [".git"];
         entryPath Demo.root ["build"]; entryPath Demo.root ["build"; "x"];
         entryPath Demo.root ["license-checker.cfg"];
         entryPath Demo.root ["out"]; entryPath Demo.root ["out"; "bar.txt"];
         entryPath Demo.root ["out"; "foo.txt"] ].
Proof. split; vm_compute; reflexivity. Qed.

(** A rule list that excludes the directory [out] itself: the walker of
    the package [checker] still reaches [out/foo.txt], the walker of
    [main.go] skips the directory. *)
Example excluded_directory_descended :
  let w := Demo.world Demo.outTree Demo.outFiles
             [ mkParsed [] ["out"; "out/*"]; mkParsed ["out/foo.txt"] [] ]
             ["MIT"] in
  let cfg := Demo.configOf w in
  shouldExamine cfg Demo.root (entryPath Demo.root ["out"]) = false
  /\ fst (gatherFiles w Demo.root cfg)
     = Ok [relPath ["build"; "x"]; relPath ["out"; "foo.txt"]]
  /\ fst (Walk Demo.outTree Demo.root
            (Legacy.gatherFn (shouldExamine cfg) Demo.root) [])
     = [relPath ["build"; "x"]].
Proof. repeat split; vm_compute; reflexivity. Qed.

(** * Properties of the rest of the program *)

(** ** More on the rules *)

Lemma evaluate_lastMatching (rs : list Rule) (path : string) (decision : bool) :
  fold_left (override path) rs decision
  = match lastMatching rs path with
    | Some (IncludeOf _) => true
    | Some (ExcludeOf _) => false
    | None => decision
    end.
Proof.
  unfold lastMatching.
  induction rs as [|r rs IH] using rev_ind; [reflexivity|].
  rewrite fold_left_app, rev_unit. simpl. rewrite IH.
  destruct r as [patterns|patterns]; simpl;
    now destruct (anyMatches patterns path).
Qed.

(** X1.  Later rules take precedence over earlier ones: for rules decoded
    by [UnmarshalJSON], [shouldExamine] answers as the last rule written in
    the entries that has a pattern matching the relative path says, and
    [true] when no rule has one.  The rules are those of the pattern
    strings of the entries, each compiled by [match.New]. *)
Theorem last_matching_rule_decides (w : World) (body : string)
    (rules : searchRules) (H : UnmarshalJSON w body = Ok rules) :
  exists p rs,
    jsonRules w body = Ok p
    /\ ruleSet (matchNew w) p rs
    /\ (forall licenses root absPath relPath,
          Rel (ToSlash root) (ToSlash absPath) = Ok relPath ->
          shouldExamine (mkConfig rules licenses) root absPath
          = match lastMatching rs (text relPath) with
            | Some (IncludeOf _) => true
            | Some (ExcludeOf _) => false
            | None => true
            end)
    /\ (forall licenses root segs,
          shouldExamine (mkConfig rules licenses) root (entryPath root segs)
          = match lastMatching rs (text (relPath segs)) with
            | Some (IncludeOf _) => true
            | Some (ExcludeOf _) => false
            | None => true
            end).
Proof.
  unfold UnmarshalJSON in H.
  destruct (jsonRules w body) as [p|] eqn:Hp; [|discriminate].
  destruct (unmarshalRules_declares _ _ _ _ H) as (rs & Hd & ->).
  exists p, rs. split; [reflexivity|].
  split; [now apply declares_ruleSet|].
  assert (Hlast : forall licenses root absPath relPath,
             Rel (ToSlash root) (ToSlash absPath) = Ok relPath ->
             shouldExamine (mkConfig ([] ++ map closureOf rs) licenses)
               root absPath
             = match lastMatching rs (text relPath) with
               | Some (IncludeOf _) => true
               | Some (ExcludeOf _) => false
               | None => true
               end).
  { intros licenses root absPath relPath Hrel.
    unfold shouldExamine. rewrite Hrel. simpl.
    rewrite fold_closures. apply evaluate_lastMatching. }
  split; [exact Hlast|].
  intros licenses root segs. apply Hlast, Rel_entryPath.
Qed.

Section DecoderAccepts.

Variable New : string -> result Match.Test.

Lemma compileTests_accepts patterns :
  (exists tests, compileTests New patterns = Ok tests)
  <-> Forall (compiles New) patterns.
Proof.
  induction patterns as [|pattern patterns IH]; simpl.
  - split; [constructor|now exists []].
  - split.
    + intros [tests H].
      destruct (New pattern) as [test|] eqn:Hnew; [|discriminate].
      destruct (compileTests New patterns) as [tests'|]; [|discriminate].
      constructor; [now exists test|]. apply IH. now exists tests'.
    + intros Hall. inversion Hall as [|? ? [test Hnew] Hrest]; subst.
      apply IH in Hrest. destruct Hrest as [tests' ->].
      rewrite Hnew. now exists (test :: tests').
Qed.

Lemma accepted_one_list entry patterns :
  (Include entry = patterns /\ Exclude entry = []
   \/ Include entry = [] /\ Exclude entry = patterns) ->
  accepted New entry <-> exists tests, compileTests New patterns = Ok tests.
Proof.
  intros Hlists. rewrite compileTests_accepts.
  unfold accepted, conflicts, usedPatterns.
  destruct Hlists as [[<- ->]|[-> <-]]; rewrite ?app_nil_r; simpl;
    split; try (now intros [_ H]); intros H; (split; [|exact H]);
    now intros [Hi He].
Qed.

Lemma unmarshalRules_accepts p :
  forall l,
    (exists rules, unmarshalRules New p l = Ok rules)
    <-> Forall (accepted New) p.
Proof.
  induction p as [|entry p IH]; intros l; simpl.
  - split; [constructor|now exists l].
  - rewrite List.Forall_cons_iff.
    destruct (0 <? List.length (Include entry))%nat eqn:Hi;
      destruct (0 <? List.length (Exclude entry))%nat eqn:He; simpl.
    + apply nonempty_length in Hi. apply nonempty_length in He. split.
      * intros [rules H]. discriminate.
      * intros [[Hno _] _]. exfalso. apply Hno. now split.
    + apply empty_length in He.
      rewrite (accepted_one_list entry (Include entry)) by now left.
      destruct (compileTests New (Include entry)) as [tests|].
      * rewrite IH. split; [intros H; split; [now exists tests|exact H]|].
        now intros [_ H].
      * split; [intros [rules H]; discriminate|].
        intros [[tests H] _]. discriminate.
    + apply empty_length in Hi.
      rewrite (accepted_one_list entry (Exclude entry)) by now right.
      destruct (compileTests New (Exclude entry)) as [tests|].
      * rewrite IH. split; [intros H; split; [now exists tests|exact H]|].
        now intros [_ H].
      * split; [intros [rules H]; discriminate|].
        intros [[tests H] _]. discriminate.
    + apply empty_length in Hi. apply empty_length in He.
      rewrite (accepted_one_list entry []) by now left.
      rewrite IH. split; [intros H; split; [now exists []|exact H]|].
      now intros [_ H].
Qed.

End DecoderAccepts.

(** X2.  [UnmarshalJSON] accepts a rule list exactly when its text
    decodes, no entry carries both lists, and [match.New] compiles every
    pattern of every entry; otherwise it returns an error and no rule. *)
Theorem UnmarshalJSON_accepts (w : World) (body : string) :
  (exists rules, UnmarshalJSON w body = Ok rules)
  <-> exists p,
        jsonRules w body = Ok p
        /\ Forall (accepted (matchNew w)) p.
Proof.
  unfold UnmarshalJSON. destruct (jsonRules w body) as [p|e].
  - rewrite (unmarshalRules_accepts (matchNew w) p []). split.
    + intros Hall. now exists p.
    + intros (p' & Heq & Hall). now injection Heq as ->.
  - split; [intros [rules H]; discriminate|].
    intros (p & Heq & _). discriminate.
Qed.

(** ** More on the licenses *)

Lemma allowsLicense_In (c : Config) (name : string) :
  allowsLicense c name = true <-> In name (Licenses c).
Proof.
  rewrite allowsLicense_existsb, existsb_exists. split.
  - intros (l & Hin & Heq). apply String.eqb_eq in Heq. now subst.
  - intros Hin. exists name. split; [assumption|apply String.eqb_refl].
Qed.

Lemma checkMatches_None (cfg : Config) (path : Path)
    (ms : list licensecheck.Match) :
  checkMatches cfg path ms = None
  <-> Forall (fun m => In (licensecheck.ID m) (Licenses cfg)) ms.
Proof.
  induction ms as [|m ms IH]; simpl.
  - split; [constructor|reflexivity].
  - destruct (allowsLicense cfg (licensecheck.ID m)) eqn:Hm; simpl.
    + apply allowsLicense_In in Hm. rewrite IH. split.
      * intros Hall. now constructor.
      * now inversion 1.
    + split; [discriminate|].
      inversion 1 as [|? ? Hin _]; subst.
      apply allowsLicense_In in Hin. congruence.
Qed.

(** X3.  The list of permitted licenses matters as a set only:
    [allowsLicense] is membership, and a file that passes under one config
    passes under every config that permits at least the same licenses,
    whatever the order, the repetitions and the rules of the two. *)
Theorem permitting_more_keeps_files_ok (w : World) (root path : Path)
    (c1 c2 : Config)
    (Hsub : forall name, In name (Licenses c1) -> In name (Licenses c2))
    (Hok : fst (examine w root path c1) = None) :
  fst (examine w root path c2) = None
  /\ (forall name, allowsLicense c1 name = true <-> In name (Licenses c1)).
Proof.
  split; [|intros name; apply allowsLicense_In].
  unfold examine in *. rewrite fst_bind, ReadFile_fst in *.
  destruct (fsRead w (Join root path)) as [body|]; [|discriminate].
  destruct (List.length (Scan w body) =? 0)%nat; [discriminate|].
  simpl in *. apply checkMatches_None. apply checkMatches_None in Hok.
  rewrite List.Forall_forall in Hok |- *.
  intros m Hm. apply Hsub. now apply Hok.
Qed.

(** ** More on the scan of a config *)

Lemma reads_app (t1 t2 : list Event) : reads (t1 ++ t2) = reads t1 ++ reads t2.
Proof. unfold reads. apply flat_map_app. Qed.

Lemma flat_map_lookup_seq {A B} (g : A -> B) (files pre : list A) :
  flat_map (fun i => match (pre ++ files) !! i with
                     | Some file => [g file]
                     | None => []
                     end) (seq (List.length pre) (List.length files))
  = map g files.
Proof.
  revert pre. induction files as [|f files IH]; intros pre; [reflexivity|].
  simpl. rewrite list_lookup_middle by reflexivity. simpl. f_equal.
  specialize (IH (pre ++ [f])).
  rewrite <- app_assoc, length_app, Nat.add_1_r in IH. exact IH.
Qed.

Lemma runConfig_reads (w : World) (cfg : Config) (root : Path)
    (files : list Path) :
  fst (gatherFiles w root cfg) = Ok files ->
  reads (snd (runConfig w cfg root))
  = reads (snd (runGoroutines w root cfg files (schedule w files)
                  (replicate (List.length files) None))).
Proof.
  intros Hfiles. rewrite gatherFiles_candidates in Hfiles.
  injection Hfiles as <-.
  unfold runConfig. rewrite snd_bind, gatherFiles_candidates.
  cbn [fst snd]. rewrite snd_bind. cbv beta. rewrite snd_bind.
  rewrite !reads_app. cbn [ret snd reads flat_map Printf emit].
  cbn [app]. now rewrite app_nil_r.
Qed.

(** X4.  During the scan of a config every file the walk selected is read
    exactly once, and nothing else is read, in whatever order the
    goroutines run. *)
Theorem each_selected_file_read_once (w : World) (cfg : Config) (root : Path)
    (files : list Path)
    (Hfiles : fst (gatherFiles w root cfg) = Ok files)
    (Hsched : Permutation (schedule w files) (seq 0 (List.length files))) :
  Permutation (reads (snd (runConfig w cfg root))) (map (Join root) files).
Proof.
  rewrite (runConfig_reads w cfg root files Hfiles).
  rewrite runGoroutines_trace.
  - rewrite <- (flat_map_lookup_seq (Join root) files []).
    simpl. now apply Permutation_flat_map.
  - apply List.Forall_forall. intros i Hi.
    apply (Permutation_in i Hsched), in_seq in Hi. lia.
Qed.

Lemma report_errorPath (path : Path) (o : Outcome) (e : error) :
  report path o = Some e -> errorPath e = Some (text path).
Proof.
  destruct o; simpl; intros H; try discriminate; now injection H as <-.
Qed.

Lemma failures_of_files (w : World) (root : Path) (cfg : Config)
    (files : list Path) :
  Forall2 (fun file e => fst (examine w root file cfg) = Some e
                         /\ errorPath e = Some (text file))
    (failingFiles w root cfg files)
    (failures (scanSequential w root cfg files)).
Proof.
  induction files as [|file files IH]; [constructor|].
  unfold failingFiles. simpl.
  destruct (fst (examine w root file cfg)) as [e|] eqn:He; [|exact IH].
  constructor; [|exact IH]. split; [exact He|].
  rewrite examine_classify in He. now apply report_errorPath in He.
Qed.

Lemma failingFiles_sublist (w : World) (root : Path) (cfg : Config)
    (files : list Path) :
  sublist (failingFiles w root cfg files) files.
Proof.
  induction files as [|file files IH]; [constructor|].
  unfold failingFiles. simpl.
  destruct (fst (examine w root file cfg)); now constructor.
Qed.

Lemma Forall2_In_left {A B} (P : A -> B -> Prop) (l : list A) (k : list B)
    (x : A) :
  Forall2 P l k -> In x l -> exists y, In y k /\ P x y.
Proof.
  induction 1 as [|a b l k Hab Hlk IH]; intros Hin; [destruct Hin|].
  destruct Hin as [->|Hin].
  - exists b. split; [now left|exact Hab].
  - destruct (IH Hin) as (y & Hy & Hxy). exists y. split; [now right|exact Hxy].
Qed.

(** X5.  What [runConfig] returns is one error for each selected file
    whose examination fails, in the order of the walk: the errors stand one
    to one, in order, for the selected files that fail, each is the outcome
    of its file and names it; so every selected file that fails has its
    error returned, there are as many errors as failing files, and at most
    as many as files. *)
Theorem one_error_per_failing_file (w : World) (cfg : Config) (root : Path)
    (files : list Path)
    (Hfiles : fst (gatherFiles w root cfg) = Ok files)
    (Hsched : Permutation (schedule w files) (seq 0 (List.length files))) :
  Forall2 (fun file e => fst (examine w root file cfg) = Some e
                         /\ errorPath e = Some (text file))
    (failingFiles w root cfg files) (fst (runConfig w cfg root))
  /\ (forall file e,
         In file files -> fst (examine w root file cfg) = Some e ->
         In e (fst (runConfig w cfg root)))
  /\ sublist (failingFiles w root cfg files) files
  /\ List.length (fst (runConfig w cfg root))
     = List.length (failingFiles w root cfg files)
  /\ (List.length (fst (runConfig w cfg root)) <= List.length files)%nat.
Proof.
  rewrite (runConfig_fst w cfg root files Hfiles), removeNilErrs_failures.
  rewrite runGoroutines_sequential by assumption.
  pose proof (failures_of_files w root cfg files) as Hall.
  pose proof (failingFiles_sublist w root cfg files) as Hsub.
  split; [exact Hall|]. split; [|split; [exact Hsub|split]].
  - intros file e Hin He.
    assert (Hfail : In file (failingFiles w root cfg files)).
    { apply filter_In. split; [exact Hin|]. now rewrite He. }
    destruct (Forall2_In_left _ _ _ _ Hall Hfail) as (e' & Hin' & He' & _).
    rewrite He in He'. now injection He' as <-.
  - symmetry. exact (Forall2_length _ _ _ Hall).
  - rewrite <- (Forall2_length _ _ _ Hall). now apply sublist_length.
Qed.

(** ** More on the walk *)

Lemma filter_none {A} (f : A -> bool) (l : list A) :
  (forall x, f x = false) -> List.filter f l = [].
Proof.
  intros Hf. induction l as [|x l IH]; simpl; [reflexivity|].
  now rewrite Hf.
Qed.

Lemma candidates_fileAt (tree : Node) (segs : list string) :
  In segs (candidates tree) ->
  match tree with
  | File => segs = []
  | Dir es => fileAt es segs = true
  end.
Proof.
  destruct tree as [|es]; simpl.
  - now intros [<-|[]].
  - intros Hin. apply rootCandidates_entries, entriesFiles_fileAt in Hin.
    now destruct Hin as (rest & -> & Hrest).
Qed.

(** X6.  [gatherFiles] never fails.  Each path it returns is relative,
    is accepted by [shouldExamine] and is a non-directory of the tree; when
    the rules accept no path the list is empty, and when the config has no
    rule every non-directory outside the reserved entries is returned,
    provided the root lists no non-directory [.git]. *)
Theorem gatherFiles_returns_selected_files (w : World) (root : Path)
    (cfg : Config) :
  exists files,
    gatherFiles w root cfg = (Ok files, [EvWalk root])
    /\ (forall p, In p files ->
          isAbs p = false
          /\ shouldExamine cfg root (Join root p) = true
          /\ match Tree w root with
             | File => elems p = []
             | Dir es => fileAt es (elems p) = true
             end)
    /\ ((forall absPath, shouldExamine cfg root absPath = false) ->
        files = [])
    /\ (Paths cfg = [] ->
        forall es segs,
          Tree w root = Dir es -> fileAt es [".git"] = false ->
          fileAt es segs = true -> ~ underGit segs ->
          segs <> [ConfigFileName] ->
          In (relPath segs) files).
Proof.
  rewrite gatherFiles_candidates. eexists. split; [reflexivity|].
  split; [|split].
  - intros p Hin. apply in_map_iff in Hin. destruct Hin as (segs & <- & Hin).
    apply List.filter_In in Hin. destruct Hin as [Hin Hsel].
    split; [reflexivity|]. split; [exact Hsel|].
    now apply candidates_fileAt.
  - intros Hnone. rewrite filter_none; [reflexivity|].
    intros segs. apply Hnone.
  - intros Hrules es segs Htree Hnogit Hfile Hgit Hcfg.
    rewrite In_map_relPath, List.filter_In, Htree. split.
    + apply rootCandidates_complete; try assumption.
      now apply (fileAt_entriesFiles segs es []).
    + unfold selects, shouldExamine. rewrite Rel_entryPath, Hrules.
      reflexivity.
Qed.

(** ** More on the run *)

Lemma prefix_app (pre rest : string) : String.prefix pre (pre ++ rest) = true.
Proof.
  induction pre as [|c pre IH]; simpl; [now destruct rest|].
  destruct (ascii_dec c c); [exact IH|contradiction].
Qed.

Lemma Contains_middle (a s c : string) : Contains (a ++ s ++ c) s = true.
Proof.
  induction a as [|x a IH]; [apply (Contains_prefix s c)|].
  cbn -[String.prefix]. rewrite IH. apply orb_true_r.
Qed.

Lemma failureLines_holds (errs : list error) (e : error) :
  In e errs ->
  exists before after,
    failureLines errs = (before ++ Error e ++ after)%string.
Proof.
  induction errs as [|e' errs IH]; intros Hin; [destruct Hin|].
  destruct Hin as [->|Hin].
  - exists "* "%string, (nl ++ failureLines errs)%string. reflexivity.
  - destruct (IH Hin) as (before & after & Heq).
    exists ("* " ++ Error e' ++ nl ++ before)%string, after.
    cbn [failureLines]. rewrite Heq, !string_app_assoc. reflexivity.
Qed.

(** X8.  The text of the error [Check] returns for a config with failures
    starts with the line that counts them and contains the text of every
    one of them; the tests of [TestBad] look for such a text. *)
Theorem aggregate_error_holds_every_failure (w : World) (dir : string)
    (root : Path) (pre post : list Config) (cfg : Config)
    (Habs : Abs w dir = Ok root)
    (Hload : fst (loadConfigs w root) = Ok (pre ++ cfg :: post))
    (Hpre : forall c, In c pre -> fst (runConfig w c root) = [])
    (Hcfg : fst (runConfig w cfg root) <> []) :
  exists err,
    fst (Check w dir) = Some err
    /\ HasPrefix (Error err)
         (itoa (List.length (fst (runConfig w cfg root))) ++ " errors:" ++ nl)
       = true
    /\ forall e, In e (fst (runConfig w cfg root)) ->
                 Contains (Error err) (Error e) = true.
Proof.
  rewrite (Check_loaded w root dir _ Habs Hload).
  rewrite (checkConfigs_failing w root pre post cfg Hpre Hcfg).
  cbn [fst]. rewrite aggregate_text. eexists. split; [reflexivity|].
  cbn [Error]. unfold aggregateText. split.
  - unfold HasPrefix. rewrite <- !string_app_assoc. apply prefix_app.
  - intros e Hin.
    destruct (failureLines_holds _ _ Hin) as (before & after & ->).
    rewrite <- !string_app_assoc.
    rewrite (string_app_assoc _ (Error e) after).
    apply Contains_middle.
Qed.

(** The cut set of [loadConfigs] holds the space, the newline and the tab,
    and nothing else. *)
Lemma inCutset_isBlank (c : ascii) : inCutset c cutset = isBlank c.
Proof.
  destruct c as [[] [] [] [] [] [] [] []]; reflexivity.
Qed.

Lemma TrimLeft_blank (ws rest : string) (c : ascii) :
  blank ws = true -> isBlank c = false ->
  TrimLeft (ws ++ String c rest) cutset = String c rest.
Proof.
  intros Hws Hc. induction ws as [|x ws IH]; cbn [append TrimLeft].
  - now rewrite inCutset_isBlank, Hc.
  - cbn [blank] in Hws. apply andb_true_iff in Hws.
    destruct Hws as [Hx Hws]. rewrite inCutset_isBlank, Hx. now apply IH.
Qed.

Lemma TrimLeft_all_blank (s : string) :
  blank s = true -> TrimLeft s cutset = EmptyString.
Proof.
  induction s as [|x s IH]; cbn [blank TrimLeft]; [reflexivity|].
  intros H. apply andb_true_iff in H. destruct H as [Hx Hs].
  rewrite inCutset_isBlank, Hx. now apply IH.
Qed.

Lemma HasPrefix_brace (c : ascii) (rest : string) :
  HasPrefix (String c rest) "{" = Ascii.eqb c "{".
Proof.
  unfold HasPrefix. cbn [String.prefix].
  destruct (ascii_dec "{" c) as [<-|Hne].
  - now destruct rest.
  - symmetry. apply Ascii.eqb_neq. congruence.
Qed.

(** X9.  [loadConfigs] decides between the two forms of the config file by
    its first character after leading spaces, newlines and tabs: an
    opening brace has the text decoded as one config, giving a list of
    one; any other character, and a text that is blank throughout, has it
    decoded as a list of configs.  The characters passed over are the
    space, the newline and the tab, and no other. *)
Theorem loadConfigs_single_or_list (w : World) (root : Path) (body : string)
    (Hread : fsRead w (configPath root) = Ok body) :
  (forall ws rest,
      body = (ws ++ String "{" rest)%string -> blank ws = true ->
      fst (loadConfigs w root)
      = bindR (jsonConfig w body)
          (fun raw => bindR (decodeConfig w raw) (fun cfg => Ok [cfg])))
  /\ (forall ws c rest,
         body = (ws ++ String c rest)%string -> blank ws = true ->
         isBlank c = false -> c <> "{"%char ->
         fst (loadConfigs w root)
         = bindR (jsonConfigs w body) (decodeConfigs w))
  /\ (blank body = true ->
      fst (loadConfigs w root)
      = bindR (jsonConfigs w body) (decodeConfigs w)).
Proof.
  assert (Hfst : fst (loadConfigs w root)
                 = if HasPrefix (TrimLeft body cutset) "{"
                   then bindR (jsonConfig w body)
                          (fun raw => bindR (decodeConfig w raw)
                                        (fun cfg => Ok [cfg]))
                   else bindR (jsonConfigs w body) (decodeConfigs w)).
  { unfold loadConfigs. rewrite fst_bind, ReadFile_fst.
    fold (configPath root). rewrite Hread.
    destruct (HasPrefix (TrimLeft body cutset) "{").
    - destruct (jsonConfig w body) as [raw|]; [|reflexivity].
      simpl. now destruct (decodeConfig w raw).
    - now destruct (jsonConfigs w body). }
  rewrite Hfst. split; [|split].
  - intros ws rest -> Hws.
    now rewrite TrimLeft_blank, HasPrefix_brace by (assumption || reflexivity).
  - intros ws c rest -> Hws Hc Hne.
    rewrite TrimLeft_blank, HasPrefix_brace by assumption.
    apply Ascii.eqb_neq in Hne. now rewrite Hne.
  - intros Hblank. now rewrite TrimLeft_all_blank.
Qed.

Section MainExit.

Variables (w : World) (root : Path).

Lemma first_failing_config (cfgs : list Config) :
  (forall c, In c cfgs -> fst (runConfig w c root) = [])
  \/ exists pre cfg post,
       cfgs = pre ++ cfg :: post
       /\ (forall c, In c pre -> fst (runConfig w c root) = [])
       /\ fst (runConfig w cfg root) <> [].
Proof.
  induction cfgs as [|c cfgs IH]; [left; intros c []|].
  destruct (fst (runConfig w c root)) as [|e errs] eqn:Hc.
  - destruct IH as [Hall|(pre & cfg & post & -> & Hpre & Hcfg)].
    + left. intros c' [<-|Hin]; [exact Hc|now apply Hall].
    + right. exists (c :: pre), cfg, post. split; [reflexivity|].
      split; [|exact Hcfg].
      intros c' [<-|Hin]; [exact Hc|now apply Hpre].
  - right. exists [], c, cfgs. split; [reflexivity|].
    split; [intros c' []|]. now rewrite Hc.
Qed.

Lemma Check_nil_iff_clean (dir : string) (cfgs : list Config) :
  Abs w dir = Ok root -> fst (loadConfigs w root) = Ok cfgs ->
  fst (Check w dir) = None
  <-> forall c, In c cfgs -> fst (runConfig w c root) = [].
Proof.
  intros Habs Hload. rewrite (Check_loaded w root dir cfgs Habs Hload).
  cbn [fst]. split.
  - intros Hnil.
    destruct (first_failing_config cfgs)
      as [Hall|(pre & cfg & post & -> & Hpre & Hcfg)]; [exact Hall|].
    rewrite (checkConfigs_failing w root pre post cfg Hpre Hcfg) in Hnil.
    discriminate.
  - intros Hall. now rewrite (checkConfigs_clean w root cfgs Hall).
Qed.

End MainExit.

(** X10.  [main] exits with status 0 and an empty error stream exactly
    when every loaded config scans without a failure; otherwise it exits
    with status 1 after writing the text of the error and a newline to the
    error stream.  It takes the directory from the flag, and from [cwd]
    when the flag is absent. *)
Theorem main_exit_status (w : World) (p : Cmd.Process) (root : Path)
    (cfgs : Configs)
    (Habs : Abs w (Cmd.wd p) = Ok root)
    (Hload : fst (loadConfigs w root) = Ok cfgs) :
  (Cmd.status (fst (Cmd.main w p)) = 0
   <-> forall c, In c cfgs -> fst (runConfig w c root) = [])
  /\ (Cmd.status (fst (Cmd.main w p)) = 0
      /\ Cmd.stderr (fst (Cmd.main w p)) = EmptyString
      \/ Cmd.status (fst (Cmd.main w p)) = 1
         /\ exists e, fst (Check w (Cmd.wd p)) = Some e
                      /\ Cmd.stderr (fst (Cmd.main w p))
                         = (Error e ++ nl)%string)
  /\ snd (Cmd.main w p) = snd (Check w (Cmd.wd p))
  /\ (Cmd.dirFlag p = None ->
      Cmd.wd p = match Cmd.Getwd p with Ok d => d | Err _ => EmptyString end).
Proof.
  pose proof (Check_nil_iff_clean w root (Cmd.wd p) cfgs Habs Hload) as Hiff.
  unfold Cmd.main. rewrite fst_bind, snd_bind.
  destruct (fst (Check w (Cmd.wd p))) as [e|] eqn:Hcheck; cbn [fst snd ret].
  - split; [|split; [|split]].
    + rewrite <- Hiff. cbn [Cmd.status]. split; discriminate.
    + right. split; [reflexivity|]. now exists e.
    + apply app_nil_r.
    + intros Hflag. unfold Cmd.wd, Cmd.cwd. rewrite Hflag.
      now destruct (Cmd.Getwd p).
  - split; [|split; [|split]].
    + rewrite <- Hiff. cbn [Cmd.status]. now split.
    + now left.
    + apply app_nil_r.
    + intros Hflag. unfold Cmd.wd, Cmd.cwd. rewrite Hflag.
      now destruct (Cmd.Getwd p).
Qed.

(** ** Directories that cannot be read *)

Lemma FsNode_induction (P : Fs.Node -> Prop)
    (HFile : P Fs.File)
    (HDir : forall readErr es,
        Forall (fun e => P (snd e)) es -> P (Fs.Dir readErr es)) :
  forall n, P n.
Proof.
  fix IH 1. intros [|readErr es]; [exact HFile|]. apply HDir.
  induction es as [|[name child] es IHes]; constructor;
    [apply IH|exact IHes].
Qed.

Lemma readable_Dir (es : list (string * Fs.Node)) :
  Fs.readable (Fs.Dir None es) = Dir (Fs.readableEntries es).
Proof.
  reflexivity.
Qed.

Lemma nodeIsDir_readable (n : Fs.Node) :
  nodeIsDir (Fs.readable n)
  = match n with Fs.File => false | Fs.Dir _ _ => true end.
Proof. destruct n as [|[e|] es]; reflexivity. Qed.

(** A callback that does not look at the error it is given walks a tree
    with unreadable directories as it walks the tree in which they are
    empty. *)
Lemma Fs_walk_readable {St} (walkFn : filepath.WalkFunc St) (n : Fs.Node) :
  forall path st,
    Fs.walk (fun p info _ => walkFn p info) path n st
    = walk walkFn path (Fs.readable n) st.
Proof.
  induction n as [|readErr es IH] using FsNode_induction; intros path st;
    [reflexivity|].
  destruct readErr as [e|].
  - simpl. destruct (walkFn path (mkInfo true) st) as [st1 [err|]];
      reflexivity.
  - rewrite readable_Dir, walk_Dir. simpl.
    destruct (walkFn path (mkInfo true) st) as [st1 [err|]]; [reflexivity|].
    revert st1. induction IH as [|[name child] es Hchild _ IHes]; intros st1;
      [reflexivity|].
    simpl. simpl in Hchild. rewrite Hchild, nodeIsDir_readable.
    destruct (walk walkFn _ (Fs.readable child) st1) as [st' [err|]].
    + destruct (negb match child with
                     | Fs.File => false
                     | Fs.Dir _ _ => true
                     end || negb (isSkipDir err)); [reflexivity|apply IHes].
    + apply IHes.
Qed.

(** X7.  A directory whose names cannot be read does not make
    [gatherFiles] fail: the callback drops the error it is handed, so the
    walk goes on and the result is the one for the tree in which that
    directory is empty. *)
Theorem unreadable_directory_is_skipped_silently (tree : Fs.Node)
    (root : Path) (cfg : Config) :
  exists files,
    Fs.gatherFiles tree root cfg = Ok files
    /\ forall w, Tree w root = Fs.readable tree ->
                 fst (gatherFiles w root cfg) = Ok files.
Proof.
  unfold Fs.gatherFiles, Fs.Walk.
  change (Fs.gatherFn root cfg)
    with (fun p info (_ : option error) => gatherFn root cfg p info).
  rewrite Fs_walk_readable.
  pose proof (Walk_gatherFn root cfg (Fs.readable tree)) as Hwalk.
  unfold Walk in Hwalk.
  destruct (walk (gatherFn root cfg) root (Fs.readable tree) [])
    as [files [[|e]|]]; try discriminate;
    injection Hwalk as ->; (eexists; split; [reflexivity|]);
    intros w Htree; now rewrite gatherFiles_candidates, Htree.
Qed.

(** ** removeNilErrs of main.go *)

Lemma failures_drop (errs : list (option error)) (i : nat)
    (x : option error) :
  errs !! i = Some x ->
  failures (drop i errs)
  = match x with
    | Some e => e :: failures (drop (S i) errs)
    | None => failures (drop (S i) errs)
    end.
Proof.
  intros Hi. rewrite (drop_S _ _ _ Hi). now destruct x.
Qed.

Lemma compact_spec (errs : list (option error)) (n : nat) :
  forall i kept,
    i + n = List.length errs -> (List.length kept <= i)%nat ->
    MainGo.compact n i (List.length kept)
      (kept ++ drop (List.length kept) errs)
    = (let kept' := kept ++ map Some (failures (drop i errs)) in
       (kept' ++ drop (List.length kept') errs, List.length kept')).
Proof.
  induction n as [|n IH]; intros i kept Hlen Hkept.
  - cbn [MainGo.compact]. rewrite (drop_ge errs i) by lia.
    cbn [failures map]. now rewrite app_nil_r.
  - assert (Hi : exists x, errs !! i = Some x).
    { apply lookup_lt_is_Some. lia. }
    destruct Hi as [x Hi].
    assert (Hread : (kept ++ drop (List.length kept) errs) !! i = Some x).
    { rewrite lookup_app_r by lia. rewrite lookup_drop.
      now replace (List.length kept + (i - List.length kept)) with i by lia. }
    cbn [MainGo.compact]. rewrite Hread, (failures_drop errs i x Hi).
    destruct x as [e|].
    + assert (Hc : exists y, errs !! List.length kept = Some y).
      { apply lookup_lt_is_Some. lia. }
      destruct Hc as [y Hc].
      rewrite insert_app_r_alt by lia.
      rewrite Nat.sub_diag, (drop_S _ _ _ Hc).
      change (<[0:=Some e]> (y :: drop (S (List.length kept)) errs))
        with (Some e :: drop (S (List.length kept)) errs).
      specialize (IH (S i) (kept ++ [Some e])).
      rewrite length_app, Nat.add_1_r, <- app_assoc in IH. cbn [app] in IH.
      rewrite IH by (simpl; lia).
      cbn [map]. now rewrite <- !app_assoc.
    + now rewrite (IH (S i) kept) by lia.
Qed.

(** X11.  [removeNilErrs] of [main.go] compacts the slice in place and
    still returns what the copying [removeNilErrs] of the package
    [checker] returns: the errors of the slice, in order.  The backing
    array holds them at its front and is unchanged behind them. *)
Theorem removeNilErrs_in_place (errs : list (option error)) :
  snd (MainGo.removeNilErrs errs) = map Some (removeNilErrs errs)
  /\ fst (MainGo.removeNilErrs errs)
     = map Some (failures errs) ++ drop (List.length (failures errs)) errs
  /\ List.length (fst (MainGo.removeNilErrs errs)) = List.length errs.
Proof.
  unfold MainGo.removeNilErrs.
  pose proof (compact_spec errs (List.length errs) 0 [] eq_refl (le_n 0))
    as Hspec.
  change (MainGo.compact (List.length errs) 0 0 errs
          = (map Some (failures errs)
               ++ drop (List.length (map Some (failures errs))) errs,
             List.length (map Some (failures errs)))) in Hspec.
  rewrite Hspec. cbn [fst snd].
  rewrite removeNilErrs_failures.
  split; [apply take_app_length|]. split.
  - now rewrite length_map.
  - rewrite length_app, length_drop, !length_map.
    assert (Hle : (List.length (failures errs) <= List.length errs)%nat).
    { clear Hspec. induction errs as [|[e|] errs IH]; simpl; lia. }
    lia.
Qed.

(** ** The rules of main.go *)

Section MainGoRules.

Variable lib : MainGo.Lib.

Lemma mainGo_unmarshalRules_app p q :
  forall l,
    MainGo.unmarshalRules lib (p ++ q) l
    = MainGo.unmarshalRules lib q (MainGo.unmarshalRules lib p l).
Proof.
  induction p as [|entry p IH]; intros l; [reflexivity|].
  simpl. apply IH.
Qed.

Lemma mainGo_excludeFunc_hit patterns root absPath cond :
  existsb (mainGoMatch lib root absPath) patterns = true ->
  MainGo.excludeFunc lib patterns root absPath cond = false.
Proof.
  unfold MainGo.excludeFunc, mainGoMatch.
  induction patterns as [|pattern patterns IH]; simpl; [discriminate|].
  destruct (fst (MainGo.pathMatch lib _ absPath)); [reflexivity|exact IH].
Qed.

Lemma mainGo_excludeFunc_miss patterns root absPath cond :
  existsb (mainGoMatch lib root absPath) patterns = false ->
  MainGo.excludeFunc lib patterns root absPath cond = cond.
Proof.
  unfold MainGo.excludeFunc, mainGoMatch.
  induction patterns as [|pattern patterns IH]; simpl; [reflexivity|].
  destruct (fst (MainGo.pathMatch lib _ absPath)); [discriminate|exact IH].
Qed.

Lemma mainGo_includeFunc_hit patterns root absPath cond :
  existsb (mainGoMatch lib root absPath) patterns = true ->
  MainGo.includeFunc lib patterns root absPath cond = true.
Proof.
  unfold MainGo.includeFunc, mainGoMatch.
  induction patterns as [|pattern patterns IH]; simpl; [discriminate|].
  destruct (fst (MainGo.pathMatch lib _ absPath)); [reflexivity|exact IH].
Qed.

Lemma existsb_nonempty {A} (f : A -> bool) (l : list A) :
  existsb f l = true -> (0 <? List.length l)%nat = true.
Proof. destruct l; [discriminate|reflexivity]. Qed.

End MainGoRules.

(** X12.  [UnmarshalJSON] of [main.go] refuses no entry: one that carries
    both lists gives its include rule followed by its exclude rule.  So for
    the last entry of a rule list, a path that one of its exclude patterns
    matches is rejected even when an include pattern of the same entry
    matches it, and a path matched by an include pattern and by no exclude
    pattern of the entry is accepted. *)
Theorem main_go_exclude_after_include (w : World) (lib : MainGo.Lib)
    (body : string) (p : list parsed) (entry : parsed)
    (Hbody : jsonRules w body = Ok (p ++ [entry])) :
  exists rules,
    MainGo.UnmarshalJSON w lib body = Ok rules
    /\ forall licenses root absPath,
         let hit := existsb (mainGoMatch lib (text root) (text absPath)) in
         (hit (Exclude entry) = true ->
          MainGo.shouldExamine (MainGo.mkConfig rules licenses) root absPath
          = false)
         /\ (hit (Exclude entry) = false -> hit (Include entry) = true ->
             MainGo.shouldExamine (MainGo.mkConfig rules licenses) root absPath
             = true).
Proof.
  unfold MainGo.UnmarshalJSON. rewrite Hbody. eexists.
  split; [reflexivity|].
  intros licenses root absPath.
  unfold MainGo.shouldExamine, ToSlash. cbn [MainGo.Paths].
  rewrite mainGo_unmarshalRules_app. cbn [MainGo.unmarshalRules].
  set (l := MainGo.unmarshalRules lib p []).
  split.
  - intros Hex. rewrite (existsb_nonempty _ _ Hex).
    rewrite fold_left_app. cbn [fold_left].
    now apply mainGo_excludeFunc_hit.
  - intros Hex Hin. rewrite (existsb_nonempty _ _ Hin).
    destruct (0 <? List.length (Exclude entry))%nat.
    + rewrite !fold_left_app. cbn [fold_left].
      rewrite mainGo_excludeFunc_miss by exact Hex.
      now apply mainGo_includeFunc_hit.
    + rewrite fold_left_app. cbn [fold_left].
      now apply mainGo_includeFunc_hit.
Qed.

(** ** The walker of main.go *)

Section LegacyWalk.

Variables (se : Path -> Path -> bool) (root : Path).

Lemma legacy_gatherFn_unreserved segs info files :
  unreserved segs ->
  Legacy.gatherFn se root (entryPath root segs) info files
  = if se root (entryPath root segs)
    then (if IsDir info then files else files ++ [relPath segs], None)
    else (files, if IsDir info then Some SkipDir else None).
Proof.
  intros [Hgit Hcfg]. unfold Legacy.gatherFn.
  pose proof (Rel_entryPath root segs) as Hrel. unfold ToSlash in Hrel.
  rewrite Hrel, Hgit, Hcfg.
  destruct (se root (entryPath root segs)), (IsDir info); reflexivity.
Qed.

Lemma legacy_gatherFn_git info files :
  Legacy.gatherFn se root (entryPath root [".git"]) info files
  = (files, Some SkipDir).
Proof.
  unfold Legacy.gatherFn.
  pose proof (Rel_entryPath root [".git"]) as Hrel. unfold ToSlash in Hrel.
  now rewrite Hrel.
Qed.

Lemma legacy_gatherFn_config info files :
  Legacy.gatherFn se root (entryPath root [ConfigFileName]) info files
  = (files, None).
Proof.
  unfold Legacy.gatherFn.
  pose proof (Rel_entryPath root [ConfigFileName]) as Hrel.
  unfold ToSlash in Hrel. now rewrite Hrel.
Qed.

Lemma acceptedFrom_child prefix name p :
  acceptedFrom se root 0 (prefix ++ [name]) p -> acceptedFrom se root 1 prefix p.
Proof.
  intros (ext & -> & Hall). exists (name :: ext).
  split; [now rewrite <- app_assoc|].
  intros [|k] Hk; [lia|]. cbn [take firstn].
  replace (prefix ++ name :: take k ext) with ((prefix ++ [name]) ++ take k ext)
    by now rewrite <- app_assoc.
  apply Hall. simpl in Hk. lia.
Qed.

Lemma acceptedFrom_here prefix p :
  se root (entryPath root prefix) = true ->
  acceptedFrom se root 1 prefix p -> acceptedFrom se root 0 prefix p.
Proof.
  intros Hhere (ext & -> & Hall). exists ext. split; [reflexivity|].
  intros [|k] Hk.
  - cbn [take firstn]. now rewrite app_nil_r.
  - apply Hall. lia.
Qed.

Lemma legacy_walkEntries_below prefix es :
  prefix <> [] ->
  Forall (fun e =>
            forall prefix files,
              prefix <> [] -> unreserved prefix ->
              exists new err,
                walk (Legacy.gatherFn se root) (entryPath root prefix)
                  (snd e) files = (files ++ new, err)
                /\ Forall (acceptedFrom se root 0 prefix) new) es ->
  forall files,
    exists new err,
      walkEntries (Legacy.gatherFn se root) (entryPath root prefix) es files
      = (files ++ new, err)
      /\ Forall (acceptedFrom se root 1 prefix) new.
Proof.
  intros Hne Hall.
  induction Hall as [|[name child] es Hchild _ IH]; intros files.
  - exists [], None. simpl. rewrite app_nil_r. split; constructor.
  - simpl. rewrite entryPath_snoc. simpl in Hchild.
    destruct (Hchild (prefix ++ [name]) files) as (new1 & err1 & Heq1 & Hnew1);
      [now destruct prefix|now apply text_deep|].
    rewrite Heq1.
    assert (Hnew1' : Forall (acceptedFrom se root 1 prefix) new1).
    { eapply List.Forall_impl; [|exact Hnew1].
      intros p. apply acceptedFrom_child. }
    destruct (IH (files ++ new1)) as (new2 & err2 & Heq2 & Hnew2).
    assert (Hboth : exists new err,
               walkEntries (Legacy.gatherFn se root) (entryPath root prefix)
                 es (files ++ new1) = (files ++ new, err)
               /\ Forall (acceptedFrom se root 1 prefix) new).
    { exists (new1 ++ new2), err2. split.
      - rewrite Heq2, <- app_assoc. reflexivity.
      - apply Forall_app. now split. }
    destruct err1 as [e|]; [|exact Hboth].
    destruct (negb (nodeIsDir child) || negb (isSkipDir e)); [|exact Hboth].
    exists new1, (Some e). now split.
Qed.

Lemma legacy_walk_below n :
  forall prefix files,
    prefix <> [] -> unreserved prefix ->
    exists new err,
      walk (Legacy.gatherFn se root) (entryPath root prefix) n files
      = (files ++ new, err)
      /\ Forall (acceptedFrom se root 0 prefix) new.
Proof.
  induction n as [|es IH] using Node_induction; intros prefix files Hne Hun.
  - simpl. rewrite legacy_gatherFn_unreserved by assumption. simpl.
    destruct (se root (entryPath root prefix)) eqn:Hse.
    + exists [relPath prefix], None. split; [reflexivity|].
      constructor; [|constructor]. exists []. rewrite app_nil_r.
      split; [reflexivity|]. intros k Hk. simpl in Hk.
      replace k with 0 by lia. cbn [take firstn]. now rewrite app_nil_r.
    + exists [], None. rewrite app_nil_r. split; constructor.
  - rewrite walk_Dir, legacy_gatherFn_unreserved by assumption. simpl.
    destruct (se root (entryPath root prefix)) eqn:Hse.
    + destruct (legacy_walkEntries_below prefix es Hne IH files)
        as (new & err & Heq & Hnew).
      exists new, err. split; [exact Heq|].
      eapply List.Forall_impl; [|exact Hnew].
      intros p. now apply acceptedFrom_here.
    + exists [], (Some SkipDir). rewrite app_nil_r. split; constructor.
Qed.

Lemma legacy_gatherFn_never_fails path info files st e :
  Legacy.gatherFn se root path info files <> (st, Some (Fail e)).
Proof.
  unfold Legacy.gatherFn.
  destruct (String.eqb _ ".git"); [discriminate|].
  destruct (String.eqb _ ConfigFileName); [discriminate|].
  destruct (negb (se root path)).
  - destruct (IsDir info); discriminate.
  - destruct (negb (IsDir info)); discriminate.
Qed.

End LegacyWalk.

(** A walk fails only with an error of its callback. *)
Lemma walk_never_fails {St} (walkFn : WalkFunc St) :
  (forall path info st st' e, walkFn path info st <> (st', Some (Fail e))) ->
  forall n path st st' e, walk walkFn path n st <> (st', Some (Fail e)).
Proof.
  intros Hfn.
  induction n as [|es IH] using Node_induction; intros path st st' e;
    [apply Hfn|].
  rewrite walk_Dir.
  destruct (walkFn path (mkInfo true) st) as [st1 [err1|]] eqn:Hcall.
  - intros Heq. injection Heq as -> ->. exact (Hfn _ _ _ _ _ Hcall).
  - clear Hcall. revert st1.
    induction IH as [|[name child] es Hchild _ IHes]; intros st1; simpl;
      [discriminate|]. simpl in Hchild.
    destruct (walk walkFn _ child st1) as [st2 [err|]] eqn:Hw; [|apply IHes].
    destruct err as [|e'].
    + destruct (negb (nodeIsDir child) || negb (isSkipDir SkipDir));
        [discriminate|apply IHes].
    + exfalso. exact (Hchild _ _ _ _ Hw).
Qed.

Section LegacyRoot.

Variables (se : Path -> Path -> bool) (root : Path).

Lemma acceptedFrom_root_entry name p :
  se root root = true ->
  acceptedFrom se root 0 [name] p ->
  exists segs, p = relPath segs /\ acceptedWithAncestors se root segs.
Proof.
  intros Hroot (ext & -> & Hall). exists ([name] ++ ext).
  split; [reflexivity|]. intros [|k] Hk _.
  - cbn [take firstn]. now rewrite entryPath_nil.
  - cbn [app take firstn]. apply (Hall k). simpl in Hk. lia.
Qed.

Lemma acceptedFrom_config_entry p :
  se root root = true ->
  acceptedFrom se root 1 [ConfigFileName] p ->
  exists segs, p = relPath segs /\ acceptedWithAncestors se root segs.
Proof.
  intros Hroot (ext & -> & Hall). exists ([ConfigFileName] ++ ext).
  split; [reflexivity|]. intros [|k] Hk Hne.
  - cbn [take firstn]. now rewrite entryPath_nil.
  - cbn [app take firstn] in *. destruct k as [|k].
    + cbn [take firstn] in Hne. contradiction.
    + apply (Hall (S k)). simpl in Hk. lia.
Qed.

Lemma legacy_walkEntries_root es :
  se root root = true ->
  forall files,
    exists new err,
      walkEntries (Legacy.gatherFn se root) root es files = (files ++ new, err)
      /\ Forall (fun p => exists segs,
                     p = relPath segs /\ acceptedWithAncestors se root segs)
           new.
Proof.
  intros Hroot.
  induction es as [|[name child] es IH]; intros files.
  - exists [], None. simpl. rewrite app_nil_r. split; constructor.
  - simpl walkEntries.
    change (Join root (relPath [name])) with (entryPath root [name]).
    assert (Hchild : exists new1 err1,
               walk (Legacy.gatherFn se root) (entryPath root [name]) child
                 files = (files ++ new1, err1)
               /\ Forall (fun p => exists segs,
                              p = relPath segs
                              /\ acceptedWithAncestors se root segs) new1).
    { destruct (String.eqb name ".git") eqn:Hgit.
      - apply String.eqb_eq in Hgit. subst name.
        exists [], (Some SkipDir). rewrite app_nil_r. split; [|constructor].
        destruct child as [|sub]; [simpl|rewrite walk_Dir];
          now rewrite legacy_gatherFn_git.
      - destruct (String.eqb name ConfigFileName) eqn:Hcfg.
        + apply String.eqb_eq in Hcfg. subst name.
          destruct child as [|sub].
          * exists [], None. rewrite app_nil_r. split; [|constructor].
            simpl. now rewrite legacy_gatherFn_config.
          * rewrite walk_Dir, legacy_gatherFn_config.
            destruct (legacy_walkEntries_below se root [ConfigFileName] sub)
              with (files := files) as (new & err & Heq & Hnew);
              [discriminate| |].
            { apply List.Forall_forall. intros e _. apply legacy_walk_below. }
            exists new, err. split; [exact Heq|].
            eapply List.Forall_impl; [|exact Hnew].
            intros p. now apply acceptedFrom_config_entry.
        + destruct (legacy_walk_below se root child [name] files)
            as (new & err & Heq & Hnew);
            [discriminate|now apply unreserved_name|].
          exists new, err. split; [exact Heq|].
          eapply List.Forall_impl; [|exact Hnew].
          intros p. now apply acceptedFrom_root_entry. }
    destruct Hchild as (new1 & err1 & Heq1 & Hnew1). rewrite Heq1.
    destruct (IH (files ++ new1)) as (new2 & err2 & Heq2 & Hnew2).
    assert (Hboth : exists new err,
               walkEntries (Legacy.gatherFn se root) root es (files ++ new1)
               = (files ++ new, err)
               /\ Forall (fun p => exists segs,
                              p = relPath segs
                              /\ acceptedWithAncestors se root segs) new).
    { exists (new1 ++ new2), err2. split.
      - rewrite Heq2, <- app_assoc. reflexivity.
      - apply Forall_app. now split. }
    destruct err1 as [e|]; [|exact Hboth].
    destruct (negb (nodeIsDir child) || negb (isSkipDir e)); [|exact Hboth].
    exists new1, (Some e). now split.
Qed.

End LegacyRoot.

(** X13.  The walker of [main.go] prunes: it returns a file only when the
    rules accept the file and every directory above it, the root included
    (the root entry that has the name of the configuration file is not
    asked about).  Nothing below a directory the rules reject is
    returned, and nothing at all when they reject the root. *)
Theorem main_go_walk_prunes (se : Path -> Path -> bool) (tree : Node)
    (root : Path) :
  (forall p,
      In p (fst (Walk tree root (Legacy.gatherFn se root) [])) ->
      exists segs, p = relPath segs /\ acceptedWithAncestors se root segs)
  /\ (se root root = false ->
      fst (Walk tree root (Legacy.gatherFn se root) []) = [])
  /\ snd (Walk tree root (Legacy.gatherFn se root) []) = None.
Proof.
  pose proof (legacy_gatherFn_unreserved se root [] (mkInfo true) []
                unreserved_root) as Hd.
  pose proof (legacy_gatherFn_unreserved se root [] (mkInfo false) []
                unreserved_root) as Hf.
  rewrite entryPath_nil in Hd, Hf. cbn [IsDir] in Hd, Hf.
  unfold Walk. destruct tree as [|es].
  - simpl walk. rewrite Hf.
    destruct (se root root) eqn:Hroot; cbn [fst snd app].
    + split; [|split; [discriminate|reflexivity]].
      intros p [<-|[]]. exists []. split; [reflexivity|].
      intros k Hk _. simpl in Hk. replace k with 0 by lia.
      cbn [take firstn]. now rewrite entryPath_nil.
    + split; [intros p []|split; reflexivity].
  - rewrite walk_Dir, Hd.
    destruct (se root root) eqn:Hroot; cbn [fst snd].
    + destruct (legacy_walkEntries_root se root es Hroot [])
        as (new & err & Heq & Hnew).
      rewrite Heq. cbn [app].
      assert (Hnever : forall e,
                 walk (Legacy.gatherFn se root) root (Dir es) []
                 <> (new, Some (Fail e))).
      { intros e. apply walk_never_fails.
        intros path info st st' e'. apply legacy_gatherFn_never_fails. }
      cbn [app] in Heq. rewrite walk_Dir, Hd, Heq in Hnever.
      destruct err as [[|e]|]; cbn [fst snd].
      * split; [|split; [discriminate|reflexivity]].
        intros p Hin. rewrite List.Forall_forall in Hnew. now apply Hnew.
      * exfalso. now apply (Hnever e).
      * split; [|split; [discriminate|reflexivity]].
        intros p Hin. rewrite List.Forall_forall in Hnew. now apply Hnew.
    + split; [intros p []|split; reflexivity].
Qed.

(** ** These properties at work on the concrete projects *)

(** For [out/foo.txt] the last matching rule of the README is its
    inclusion, for [out/bar.txt] it is the exclusion of [out/*], and no
    rule matches [src/main.c]. *)
Lemma last_matching_rule_decides_witness :
  let cfg := Demo.configOf Demo.outWorld in
  UnmarshalJSON Demo.outWorld "[paths]" = Ok (Paths cfg)
  /\ lastMatching Demo.readmeRules "out/foo.txt"
     = nth_error Demo.readmeRules 1
  /\ shouldExamine (mkConfig (Paths cfg) (Licenses cfg)) Demo.root
       (entryPath Demo.root ["out"; "foo.txt"]) = true
  /\ lastMatching Demo.readmeRules "out/bar.txt"
     = nth_error Demo.readmeRules 0
  /\ shouldExamine (mkConfig (Paths cfg) (Licenses cfg)) Demo.root
       (entryPath Demo.root ["out"; "bar.txt"]) = false
  /\ lastMatching Demo.readmeRules "src/main.c" = None
  /\ shouldExamine (mkConfig (Paths cfg) (Licenses cfg)) Demo.root
       (entryPath Demo.root ["src"; "main.c"]) = true.
Proof.
  intros cfg. split; [reflexivity|].
  destruct (last_matching_rule_decides Demo.outWorld "[paths]" (Paths cfg)
              eq_refl) as (p & rs & Hp & Hrs & _ & Hlast).
  injection Hp as <-.
  rewrite (ruleSet_functional _ _ _ _ Hrs readme_ruleSet) in Hlast.
  split; [vm_compute; reflexivity|].
  split; [rewrite Hlast; vm_compute; reflexivity|].
  split; [vm_compute; reflexivity|].
  split; [rewrite Hlast; vm_compute; reflexivity|].
  split; [vm_compute; reflexivity|].
  rewrite Hlast; vm_compute; reflexivity.
Defined.

(** A file under the MIT license passes when GPL is permitted as well. *)
Lemma permitting_more_keeps_files_ok_witness :
  let c1 := Demo.configOf Demo.outWorld in
  let c2 := mkConfig [] ["GPL-3.0"; "MIT"] in
  fst (examine Demo.outWorld Demo.root (relPath ["out"; "foo.txt"]) c1) = None
  /\ fst (examine Demo.outWorld Demo.root (relPath ["out"; "foo.txt"]) c2)
     = None.
Proof.
  intros c1 c2. split; [reflexivity|].
  refine (proj1 (permitting_more_keeps_files_ok Demo.outWorld Demo.root
                   (relPath ["out"; "foo.txt"]) c1 c2 _ eq_refl)).
  intros name [<-|[]]. right. left. reflexivity.
Defined.

(** The three files of the strict project are each read once. *)
Lemma each_selected_file_read_once_witness :
  let files := [relPath ["a.txt"]; relPath ["b.txt"]; relPath ["c.txt"]] in
  let cfg := Demo.configOf Demo.strictWorld in
  fst (gatherFiles Demo.strictWorld Demo.root cfg) = Ok files
  /\ Permutation (reads (snd (runConfig Demo.strictWorld cfg Demo.root)))
       (map (Join Demo.root) files).
Proof.
  intros files cfg. split; [reflexivity|].
  exact (each_selected_file_read_once Demo.strictWorld cfg Demo.root files
           eq_refl (Permutation_sym (Permutation_rev (seq 0 3)))).
Defined.

(** The three files of the strict project fail, and give three errors. *)
Lemma one_error_per_failing_file_witness :
  let files := [relPath ["a.txt"]; relPath ["b.txt"]; relPath ["c.txt"]] in
  let cfg := Demo.configOf Demo.strictWorld in
  fst (gatherFiles Demo.strictWorld Demo.root cfg) = Ok files
  /\ failingFiles Demo.strictWorld Demo.root cfg files = files
  /\ List.length (fst (runConfig Demo.strictWorld cfg Demo.root)) = 3
  /\ In (ErrReadFile "b.txt"
           (ErrExt "open /proj/b.txt: no such file or directory"))
       (fst (runConfig Demo.strictWorld cfg Demo.root)).
Proof.
  intros files cfg. split; [reflexivity|]. split; [reflexivity|].
  destruct (one_error_per_failing_file Demo.strictWorld cfg Demo.root
              files eq_refl
              (Permutation_sym (Permutation_rev (seq 0 3))))
    as (_ & Hin & _ & Hlen & _).
  split; [exact Hlen|].
  apply (Hin (relPath ["b.txt"])); [right; left; reflexivity|].
  vm_compute. reflexivity.
Defined.

(** The test case [bad-missing-license]: the error holds the text the test
    looks for. *)
Lemma aggregate_error_holds_every_failure_witness :
  let w := Demo.srcWorld in
  let cfg := Demo.configOf Demo.srcWorld in
  Abs w "." = Ok Demo.root
  /\ fst (loadConfigs w Demo.root) = Ok ([] ++ cfg :: [])
  /\ In (ErrNoLicense "src/missing-license.cpp")
       (fst (runConfig w cfg Demo.root))
  /\ exists err,
       fst (Check w ".") = Some err
       /\ Contains (Error err) "src/missing-license.cpp has no license"
          = true.
Proof.
  intros w cfg. split; [reflexivity|]. split; [reflexivity|].
  split; [left; reflexivity|].
  destruct (aggregate_error_holds_every_failure w "." Demo.root [] [] cfg
              eq_refl eq_refl
              (fun c (H : In c []) => match H with end)
              (fun H : fst (runConfig w cfg Demo.root) = [] =>
                 match H in _ = l return match l with
                                         | [] => False
                                         | _ => True
                                         end with
                 | eq_refl => I
                 end))
    as (err & Herr & _ & Hall).
  exists err. split; [exact Herr|].
  exact (Hall (ErrNoLicense "src/missing-license.cpp")
           (or_introl eq_refl)).
Defined.

(** A config whose brace stands after a newline, a tab and a space is
    decoded as one config; after a carriage return it is decoded as a
    list, and so is a file of blank characters only. *)
Lemma loadConfigs_single_or_list_witness :
  fsRead Demo2.indentedWorld (configPath Demo.root) = Ok Demo2.indentedBody
  /\ blank Demo2.indent = true
  /\ fst (loadConfigs Demo2.indentedWorld Demo.root)
     = bindR (jsonConfig Demo2.indentedWorld Demo2.indentedBody)
         (fun raw => bindR (decodeConfig Demo2.indentedWorld raw)
                       (fun cfg => Ok [cfg]))
  /\ fsRead Demo2.returnWorld (configPath Demo.root) = Ok Demo2.returnBody
  /\ fst (loadConfigs Demo2.returnWorld Demo.root)
     = bindR (jsonConfigs Demo2.returnWorld Demo2.returnBody)
         (decodeConfigs Demo2.returnWorld)
  /\ fsRead Demo2.blankWorld (configPath Demo.root) = Ok Demo2.indent
  /\ fst (loadConfigs Demo2.blankWorld Demo.root)
     = bindR (jsonConfigs Demo2.blankWorld Demo2.indent)
         (decodeConfigs Demo2.blankWorld).
Proof.
  split; [reflexivity|]. split; [reflexivity|].
  split; [|split; [reflexivity|split; [|split; [reflexivity|]]]].
  - exact (proj1 (loadConfigs_single_or_list Demo2.indentedWorld Demo.root
                    Demo2.indentedBody eq_refl)
             Demo2.indent " paths, licenses }" eq_refl eq_refl).
  - refine (proj1 (proj2 (loadConfigs_single_or_list Demo2.returnWorld
                            Demo.root Demo2.returnBody eq_refl))
              EmptyString (ascii_of_nat 13) "{ paths, licenses }"
              eq_refl eq_refl eq_refl _).
    discriminate.
  - exact (proj2 (proj2 (loadConfigs_single_or_list Demo2.blankWorld
                           Demo.root Demo2.indent eq_refl))
             eq_refl).
Defined.

(** The README project, started without the flag in its directory. *)
Lemma main_exit_status_witness :
  Abs Demo.outWorld (Cmd.wd Demo2.process) = Ok Demo.root
  /\ fst (loadConfigs Demo.outWorld Demo.root)
     = Ok [Demo.configOf Demo.outWorld]
  /\ Cmd.status (fst (Cmd.main Demo.outWorld Demo2.process)) = 0.
Proof.
  split; [reflexivity|]. split; [reflexivity|].
  apply (proj1 (main_exit_status Demo.outWorld Demo2.process Demo.root
                  [Demo.configOf Demo.outWorld] eq_refl eq_refl)).
  intros c [<-|[]]. reflexivity.
Defined.

(** An entry with both lists, read by [main.go] with literal patterns:
    [/proj/b] is rejected by its exclude list. *)
Lemma main_go_exclude_after_include_witness :
  jsonRules Demo.conflictWorld "[paths]"
  = Ok ([mkParsed ["src/**"] []] ++ [mkParsed ["a"] ["b"]])
  /\ exists rules,
       MainGo.UnmarshalJSON Demo.conflictWorld Demo2.literalLib "[paths]"
       = Ok rules
       /\ MainGo.shouldExamine (MainGo.mkConfig rules []) Demo.root
            (entryPath Demo.root ["b"]) = false.
Proof.
  split; [reflexivity|].
  destruct (main_go_exclude_after_include Demo.conflictWorld Demo2.literalLib
              "[paths]" [mkParsed ["src/**"] []] (mkParsed ["a"] ["b"])
              eq_refl) as (rules & Hrules & Hall).
  exists rules. split; [exact Hrules|].
  exact (proj1 (Hall [] Demo.root (entryPath Demo.root ["b"])) eq_refl).
Defined.

(** The project with a locked directory: no error, and nothing from
    below that directory. *)
Example locked_directory_is_skipped :
  Fs.gatherFiles Demo2.lockedTree Demo.root (mkConfig [] ["MIT"])
  = Ok [relPath ["src"; "ok.cpp"]].
Proof. vm_compute. reflexivity. Qed.

(** A config file that starts with a carriage return is decoded as a
    list, also when a brace follows; after a newline, a tab and a space
    the brace is found. *)
Example carriage_return_is_not_blank :
  HasPrefix (TrimLeft Demo2.returnBody cutset) "{" = false
  /\ HasPrefix (TrimLeft Demo2.indentedBody cutset) "{" = true.
Proof. split; reflexivity. Qed.

(** ** No file twice *)

Lemma In_entriesFiles_inv prefix es segs :
  In segs (entriesFiles prefix es) ->
  exists name child,
    In (name, child) es /\ In segs (nodeFiles (prefix ++ [name]) child).
Proof.
  induction es as [|[name child] es IH]; intros Hin; [destruct Hin|].
  simpl in Hin. apply in_app_or in Hin. destruct Hin as [Hin|Hin].
  - exists name, child. split; [now left|exact Hin].
  - destruct (IH Hin) as (n & c & Hnc & Hsegs).
    exists n, c. split; [now right|exact Hsegs].
Qed.

Lemma NoDup_nodeFiles n :
  forall prefix, distinctNames n = true -> NoDup (nodeFiles prefix n).
Proof.
  induction n as [|es IH] using Node_induction; intros prefix Hn.
  - apply NoDup_singleton.
  - rewrite nodeFiles_Dir.
    change (distinctNames (Dir es)) with (distinctEntries es) in Hn.
    induction IH as [|[name child] es Hchild _ IHes]; [constructor|].
    simpl in Hn, Hchild. apply andb_true_iff in Hn. destruct Hn as [Hn Hes].
    apply andb_true_iff in Hn. destruct Hn as [Hname Hc].
    simpl. apply NoDup_app. split; [now apply Hchild|]. split; [|now apply IHes].
    intros segs Hhere Hthere.
    apply list_elem_of_In in Hhere. apply list_elem_of_In in Hthere.
    apply nodeFiles_prefix in Hhere. destruct Hhere as (r & ->).
    apply In_entriesFiles_inv in Hthere.
    destruct Hthere as (n' & c' & Hin & Hsegs).
    apply nodeFiles_prefix in Hsegs. destruct Hsegs as (r' & Heq).
    rewrite <- !app_assoc in Heq. apply app_inv_head in Heq.
    injection Heq as Heq _. subst n'.
    apply negb_true_iff in Hname.
    assert (Hex : existsb (fun e => String.eqb (fst e) name) es = true).
    { apply existsb_exists. exists (name, c'). split; [exact Hin|].
      apply String.eqb_refl. }
    congruence.
Qed.

Lemma rootCandidates_sublist es :
  sublist (rootCandidates es) (entriesFiles [] es).
Proof.
  induction es as [|[name child] es IH]; [constructor|].
  simpl. destruct (String.eqb name ".git").
  - destruct (nodeIsDir child);
      [now apply sublist_inserts_l|apply sublist_nil_l].
  - destruct (String.eqb name ConfigFileName).
    + destruct child as [|sub]; [now apply sublist_inserts_l|].
      apply sublist_app; [|exact IH]. now rewrite <- nodeFiles_Dir.
    + now apply sublist_app.
Qed.

Lemma NoDup_candidates tree :
  distinctNames tree = true -> NoDup (candidates tree).
Proof.
  intros Hn. destruct tree as [|es]; [apply NoDup_singleton|].
  simpl. eapply sublist_NoDup; [|apply rootCandidates_sublist].
  rewrite <- nodeFiles_Dir. now apply NoDup_nodeFiles.
Qed.

(** X14.  When no directory of the tree lists a name twice, [gatherFiles]
    returns no path twice, so no file is examined or reported twice. *)
Theorem gatherFiles_returns_no_file_twice (w : World) (root : Path)
    (cfg : Config) (Hnames : distinctNames (Tree w root) = true) :
  exists files,
    fst (gatherFiles w root cfg) = Ok files /\ List.NoDup files.
Proof.
  rewrite gatherFiles_candidates. eexists. split; [reflexivity|].
  apply NoDup_ListNoDup.
  change (map relPath ?l) with (relPath <$> l).
  apply NoDup_fmap_2.
  - intros a b Heq. now injection Heq.
  - apply NoDup_ListNoDup, List.NoDup_filter, NoDup_ListNoDup.
    now apply NoDup_candidates.
Qed.

(** The tree of the README project lists every name once. *)
Lemma gatherFiles_returns_no_file_twice_witness :
  distinctNames (Tree Demo.outWorld Demo.root) = true
  /\ exists files,
       fst (gatherFiles Demo.outWorld Demo.root
              (Demo.configOf Demo.outWorld)) = Ok files
       /\ List.NoDup files.
Proof.
  split; [reflexivity|].
  exact (gatherFiles_returns_no_file_twice Demo.outWorld Demo.root
           (Demo.configOf Demo.outWorld) eq_refl).
Defined.
